(** * Track export of the rtl66 MIDI engine

    A shallow embedding of [src/seq66/midi/trackdata.cpp] (class [track])
    together with the inline accessors of [include/seq66/play/sequence.hpp]
    that the exporter calls.

    Conventions
    - [midi::pulse] is a signed [long]; pulses are values of [Z] and the C++
      operators [/] and [%] are [Z.quot] and [Z.rem], which fault on a zero
      divisor.
    - [midi::ulong] is an unsigned integer of [ulong_bits] bits; conversions
      to it and left shifts wrap modulo [2 ^ ulong_bits].
    - [midi::byte] is an 8-bit value of [Z]; [put] stores its argument
      modulo 256.
    - The byte container [m_bytes] of a track is the state of the monad [M];
      a computation either faults or returns a value and the new container. *)

From Stdlib Require Import ZArith List Lia Bool.
From Stdlib Require Strings.String Strings.Ascii.
From stdpp Require Import base list.
Import ListNotations.

Local Open Scope Z_scope.

(** ** Faults and the container monad *)

Inductive fault : Type :=
  | DivideByZero      (* integer division or remainder by zero *)
  | OutOfBounds       (* array subscript outside the array *)
  | OutOfFuel.        (* loop bound of the embedding exhausted *)

Inductive outcome (A : Type) : Type :=
  | Ok (a : A)
  | Fault (f : fault).

Arguments Ok {A} a.
Arguments Fault {A} f.

Definition M (A : Type) : Type := list Z -> outcome (A * list Z).

Definition ret {A} (a : A) : M A := fun bytes => Ok (a, bytes).

Definition bind {A B} (m : M A) (k : A -> M B) : M B :=
  fun bytes =>
    match m bytes with
    | Ok (a, bytes') => k a bytes'
    | Fault f => Fault f
    end.

Definition fail {A} (f : fault) : M A := fun _ => Fault f.

Notation "x <- c ;; k" := (bind c (fun x => k))
  (at level 100, c at next level, right associativity).
Notation "c ;; k" := (bind c (fun _ => k))
  (at level 100, right associativity).

Definition to_byte (x : Z) : Z := x mod 256.

(** [track::put]: append one byte to the container. *)
Definition put (b : Z) : M unit := fun bytes => Ok (tt, bytes ++ [to_byte b]).

(** [track::clear]: empty the container. *)
Definition clear : M unit := fun _ => Ok (tt, []).

(** [track::add_byte] is [put] under another name. *)
Definition add_byte (b : Z) : M unit := put b.

(** Remainder and quotient of pulses; a zero divisor is undefined in C++. *)
Definition pulse_rem (a b : Z) : M Z :=
  if b =? 0 then fail DivideByZero else ret (Z.rem a b).

Definition pulse_quot (a b : Z) : M Z :=
  if b =? 0 then fail DivideByZero else ret (Z.quot a b).

(** Narrowing of a [long] to a 32-bit [int]. *)
Definition int_of_pulse (x : Z) : Z := (x + 2 ^ 31) mod 2 ^ 32 - 2 ^ 31.

(** ** Triggers *)

Module trigger.

(** The data members of class [trigger] (see the data model: start tick,
    inclusive end tick, offset into the pattern, transposition in
    semitones). *)
Record t : Type := make {
  tick_start : Z;
  tick_end : Z;
  offset : Z;
  transpose : Z;
}.

(** Modelled from the spec: [trigger::length] is absent from the source
    tree; [tick_end] is inclusive, so a trigger spans
    [tick_end - tick_start + 1] ticks. *)
Definition length (trig : t) : Z := tick_end trig - tick_start trig + 1.

(** Modelled from the spec: [trigger::transposed] is absent from the source
    tree; a transposition of zero means none. *)
Definition transposed (trig : t) : bool := negb (transpose trig =? 0).

End trigger.

(** Modelled from the spec: [triggers::any_transposed] is absent from the
    source tree; it tells whether any trigger of the list carries a
    non-zero transposition. *)
Definition any_transposed (trigs : list trigger.t) : bool :=
  existsb trigger.transposed trigs.

(** ** Parts of the program that are not in the source tree *)

(** The widths, helpers and constants of [midi/midibytes.hpp], the
    "calculations" module, [play/seq.hpp], [cfg/scales.hpp] and
    [play/triggers.hpp].  The exporter is verified for every choice of
    them. *)
Class Platform : Type := {
  (** number of bits of [midi::ulong] *)
  ulong_bits : Z;
  ulong_bits_ge_32 : 32 <= ulong_bits;
  (** [is_null_channel] *)
  is_null_channel : Z -> bool;
  (** [c_notes_count], the size of the per-note table *)
  c_notes_count : nat;
  (** [seq66::measures_to_ticks (bpb, ppqn, bw, measures)] *)
  calc_measures_to_ticks : Z -> Z -> Z -> Z -> Z;
  (** [seq::valid] *)
  seq_valid : Z -> bool;
  (** defaults of the musical key and scale *)
  c_key_of_C : Z;
  c_scales_off : Z;
  (** the SeqSpec tags *)
  c_midibus : Z;
  c_timesig : Z;
  c_midichannel : Z;
  c_musickey : Z;
  c_musicscale : Z;
  c_backsequence : Z;
  c_transpose : Z;
  c_seq_color : Z;
  c_seq_loopcount : Z;
  c_triggers_ex : Z;
  c_trig_transpose : Z;
  (** [trigger::datasize (seqspec)] and [triggers::datasize (seqspec)] *)
  trigger_datasize : Z -> Z;
  triggers_list_datasize : list trigger.t -> Z -> Z;
  (** [trigger::transpose_byte] *)
  transpose_byte : trigger.t -> Z;
}.

(** The member functions of class [event] that the exporter calls. *)
Class EventApi (event : Type) : Type := {
  timestamp : event -> Z;
  get_status : event -> Z;
  channel : event -> Z;
  (** [e.data(i)] *)
  data : Z -> event -> Z;
  is_ex_data : event -> bool;
  is_meta : event -> bool;
  has_channel : event -> bool;
  is_note : event -> bool;
  is_note_on : event -> bool;
  is_note_off : event -> bool;
  get_note : event -> Z;
  (** [e.transpose_note(tn)], giving the changed copy *)
  transpose_note : Z -> event -> event;
  (** [e.get_message()]; [e.sysex_size()] is its length *)
  get_message : event -> list Z;
  (** [eventlist::sort] *)
  sort : list event -> list event;
}.

(** Status and meta bytes, with the values that the comments of the source
    and the description of the file format give. *)
Definition EVENT_NOTE_OFF : Z := 0x80.
Definition EVENT_NOTE_ON : Z := 0x90.
Definition EVENT_AFTERTOUCH : Z := 0xA0.
Definition EVENT_CONTROL_CHANGE : Z := 0xB0.
Definition EVENT_PROGRAM_CHANGE : Z := 0xC0.
Definition EVENT_CHANNEL_PRESSURE : Z := 0xD0.
Definition EVENT_PITCH_WHEEL : Z := 0xE0.
Definition EVENT_MIDI_META : Z := 0xFF.
Definition EVENT_META_SEQ_NUMBER : Z := 0x00.
Definition EVENT_META_TRACK_NAME : Z := 0x03.
Definition EVENT_META_END_OF_TRACK : Z := 0x2F.
Definition EVENT_META_SEQSPEC : Z := 0x7F.

(** [event::mask_status]: the status without its channel nibble. *)
Definition mask_status (st : Z) : Z := Z.land st 0xF0.

(** [c_seq_color_none] of [sequence.hpp]. *)
Definition c_seq_color_none : Z := -1.

(** The settings read through [rc()] and [usr()]. *)
Record settings : Type := {
  save_old_triggers : bool;
  global_seq_feature : bool;
}.

Section Codec.

Context `{Platform}.

Definition to_ulong (x : Z) : Z := x mod 2 ^ ulong_bits.

(** No loop over a [midi::ulong] that shifts it towards zero runs for more
    iterations than the value has bits. *)
Definition loop_fuel : nat := S (Z.to_nat ulong_bits).

(** First loop of [track::add_varinum]:
    [while (v >>= 7) { buffer <<= 8; buffer |= ((v & 0x7F) | 0x80); }] *)
Fixpoint pack_groups (fuel : nat) (v buffer : Z) : option Z :=
  match fuel with
  | O => None
  | S fuel' =>
      let v := Z.shiftr v 7 in
      if v =? 0 then Some buffer
      else
        let buffer := to_ulong (Z.shiftl buffer 8) in
        let buffer := Z.lor buffer (Z.lor (Z.land v 0x7F) 0x80) in
        pack_groups fuel' v buffer
  end.

(** Second loop of [track::add_varinum]:
    [for (;;) { put(byte(buffer) & 0xFF);
                if (buffer & 0x80) buffer >>= 8; else break; }] *)
Fixpoint emit_groups (fuel : nat) (buffer : Z) : M unit :=
  match fuel with
  | O => fail OutOfFuel
  | S fuel' =>
      put (Z.land (to_byte buffer) 0xFF) ;;
      if Z.land buffer 0x80 =? 0 then ret tt
      else emit_groups fuel' (Z.shiftr buffer 8)
  end.

(** [track::add_varinum (midi::ulong v)] *)
Definition add_varinum (v : Z) : M unit :=
  let buffer := Z.land v 0x7F in
  match pack_groups loop_fuel v buffer with
  | None => fail OutOfFuel
  | Some buffer => emit_groups loop_fuel buffer
  end.

(** [track::add_long (midi::ulong x)] *)
Definition add_long (x : Z) : M unit :=
  put (Z.shiftr (Z.land x 0xFF000000) 24) ;;
  put (Z.shiftr (Z.land x 0x00FF0000) 16) ;;
  put (Z.shiftr (Z.land x 0x0000FF00) 8) ;;
  put (Z.land x 0x000000FF).

(** [track::add_short (midi::ushort x)] *)
Definition add_short (x : Z) : M unit :=
  put (Z.shiftr (Z.land x 0x0000FF00) 8) ;;
  put (Z.land x 0x000000FF).

End Codec.

(** Modelled from the spec: [decode_varint], the reader of a variable
    length quantity, is not part of the source tree.  The standard MIDI
    rule: every byte contributes its low seven bits, most significant group
    first; a byte with bit 7 clear ends the quantity; decoding fails on
    truncated input and once more than four continuation bytes are seen. *)
Fixpoint decode_varint_from (seen : nat) (acc : Z) (bs : list Z)
  : option (Z * list Z) :=
  match bs with
  | [] => None
  | b :: rest =>
      let acc := acc * 128 + Z.land b 0x7F in
      if Z.land b 0x80 =? 0 then Some (acc, rest)
      else if (4 <? S seen)%nat then None
      else decode_varint_from (S seen) acc rest
  end.

Definition decode_varint (bs : list Z) : option (Z * list Z) :=
  decode_varint_from 0 0 bs.

(** ** The pattern: [sequence.hpp] *)

Module sequence.

(** The data members of class [sequence] that the exporter reads. *)
Record t (event : Type) : Type := make {
  m_events : list event;
  m_triggers : list trigger.t;
  m_name : String.string;
  m_length : Z;
  m_last_tick : Z;
  m_song_mute : bool;
  m_free_channel : bool;
  m_midi_channel : Z;
  m_nominal_bus : Z;
  m_time_beats_per_measure : Z;
  m_time_beat_width : Z;
  m_ppqn : Z;
  m_musical_key : Z;
  m_musical_scale : Z;
  m_background_sequence : Z;
  m_transposable : bool;
  m_seq_color : Z;
  m_loop_count_max : Z;
}.

Arguments make {event}.
Arguments m_events {event}.
Arguments m_triggers {event}.
Arguments m_name {event}.
Arguments m_length {event}.
Arguments m_last_tick {event}.
Arguments m_song_mute {event}.
Arguments m_free_channel {event}.
Arguments m_midi_channel {event}.
Arguments m_nominal_bus {event}.
Arguments m_time_beats_per_measure {event}.
Arguments m_time_beat_width {event}.
Arguments m_ppqn {event}.
Arguments m_musical_key {event}.
Arguments m_musical_scale {event}.
Arguments m_background_sequence {event}.
Arguments m_transposable {event}.
Arguments m_seq_color {event}.
Arguments m_loop_count_max {event}.

Section Accessors.

Context {event : Type} `{Platform}.

Implicit Type s : t event.

Definition events s : list event := m_events s.
Definition name s : String.string := m_name s.
Definition triggerlist s : list trigger.t := m_triggers s.
Definition get_triggers s : list trigger.t := m_triggers s.
Definition get_song_mute s : bool := m_song_mute s.
Definition trigger_count s : Z := Z.of_nat (List.length (m_triggers s)).

Definition is_exportable s : bool :=
  negb (get_song_mute s) && (trigger_count s >? 0).

Definition triggers_datasize s (seqspec : Z) : Z :=
  triggers_list_datasize (m_triggers s) seqspec.

Definition any_trigger_transposed s : bool := any_transposed (m_triggers s).

Definition color s : Z := m_seq_color s.
Definition get_beats_per_bar s : Z := m_time_beats_per_measure s.
Definition get_beat_width s : Z := m_time_beat_width s.

Definition measures_to_ticks s (measures : Z) : Z :=
  calc_measures_to_ticks
    (m_time_beats_per_measure s) (m_ppqn s) (m_time_beat_width s) measures.

Definition transposable s : bool := m_transposable s.
Definition get_length s : Z := m_length s.

Definition mod_last_tick s : Z :=
  if m_length s >? 1 then Z.rem (m_last_tick s) (m_length s)
  else m_last_tick s.

Definition loop_count_max s : Z := m_loop_count_max s.
Definition seq_midi_channel s : Z := m_midi_channel s.
Definition free_channel s : bool := m_free_channel s.
Definition seq_midi_bus s : Z := m_nominal_bus s.
Definition musical_key s : Z := m_musical_key s.
Definition musical_scale s : Z := m_musical_scale s.
Definition background_sequence s : Z := m_background_sequence s.

End Accessors.

End sequence.

(** ** The exporter: [trackdata.cpp] *)

Section Track.

Context {event : Type} `{Platform} `{EventApi event}.

Implicit Type s : sequence.t event.
Implicit Type e : event.
Implicit Type trig : trigger.t.

Definition to_ushort (x : Z) : Z := x mod 2 ^ 16.

Definition byte_of_bool (b : bool) : Z := if b then 1 else 0.

Definition byte_of_char (c : Ascii.ascii) : Z := Z.of_N (Ascii.N_of_ascii c).

(** [for (int i = 0; i < count; ++i) put(message[i]);] *)
Fixpoint put_bytes (message : list Z) : M unit :=
  match message with
  | [] => ret tt
  | b :: rest => put b ;; put_bytes rest
  end.

(** [track::put_meta (metavalue, datalen, deltatime)] *)
Definition put_meta (metavalue datalen deltatime : Z) : M unit :=
  add_varinum (to_ulong deltatime) ;;
  put EVENT_MIDI_META ;;
  put metavalue ;;
  add_varinum (to_ulong datalen).

(** [track::put_seqspec (spec, datalen)] *)
Definition put_seqspec (spec datalen : Z) : M unit :=
  let datalen := datalen + 4 in
  put_meta EVENT_META_SEQSPEC datalen 0 ;;
  add_long (to_ulong spec).

(** [track::add_ex_event (e, deltatime)] *)
Definition add_ex_event e (deltatime : Z) : M unit :=
  add_varinum (to_ulong deltatime) ;;
  put (get_status e) ;;
  (if is_meta e then put (channel e) else ret tt) ;;
  let count := Z.of_nat (List.length (get_message e)) in
  add_varinum (to_ulong count) ;;
  put_bytes (get_message e).

(** [track::add_event (e, deltatime)]; [seq_channel] is the local
    [channel] of the source. *)
Definition add_event s e (deltatime : Z) : M unit :=
  if is_ex_data e then add_ex_event e deltatime
  else
    let d0 := data 0 e in
    let d1 := data 1 e in
    let seq_channel := sequence.seq_midi_channel s in
    let st := get_status e in
    add_varinum (to_ulong deltatime) ;;
    (if sequence.free_channel s || is_null_channel seq_channel
     then put (Z.lor st (channel e))
     else put (Z.lor st seq_channel)) ;;
    if has_channel e then
      let m := mask_status st in
      if (m =? EVENT_NOTE_OFF) || (m =? EVENT_NOTE_ON)
         || (m =? EVENT_AFTERTOUCH) || (m =? EVENT_CONTROL_CHANGE)
         || (m =? EVENT_PITCH_WHEEL)
      then put d0 ;; put d1
      else if (m =? EVENT_PROGRAM_CHANGE) || (m =? EVENT_CHANNEL_PRESSURE)
      then put d0
      else ret tt
    else ret tt.

(** [track::fill_seq_number (seq)]; the delta time of [put_meta] is left
    to its default, zero. *)
Definition fill_seq_number (seq : Z) : M unit :=
  put_meta EVENT_META_SEQ_NUMBER 2 0 ;;
  add_short (to_ushort seq).

(** [track::fill_seq_name (name)], again with a delta time of zero. *)
Definition fill_seq_name (name : String.string) : M unit :=
  let len := Z.of_nat (String.length name) in
  put_meta EVENT_META_TRACK_NAME len 0 ;;
  put_bytes (map byte_of_char (String.list_ascii_of_string name)).

(** [track::fill_meta_track_end (deltatime)] *)
Definition fill_meta_track_end (deltatime : Z) : M unit :=
  put_meta EVENT_META_END_OF_TRACK 0 deltatime.

(** [track::fill_proprietary ()] *)
Definition fill_proprietary (cfg : settings) s : M unit :=
  put_seqspec c_midibus 1 ;;
  put (sequence.seq_midi_bus s) ;;
  put_seqspec c_timesig 2 ;;
  put (sequence.get_beats_per_bar s) ;;
  put (sequence.get_beat_width s) ;;
  put_seqspec c_midichannel 1 ;;
  put (sequence.seq_midi_channel s) ;;
  (if negb (global_seq_feature cfg) then
     (if negb (sequence.musical_key s =? c_key_of_C) then
        put_seqspec c_musickey 1 ;;
        put (sequence.musical_key s)
      else ret tt) ;;
     (if negb (sequence.musical_scale s =? c_scales_off) then
        put_seqspec c_musicscale 1 ;;
        put (sequence.musical_scale s)
      else ret tt) ;;
     (if seq_valid (sequence.background_sequence s) then
        put_seqspec c_backsequence 4 ;;
        add_long (to_ulong (sequence.background_sequence s))
      else ret tt)
   else ret tt) ;;
  let transpose := sequence.transposable s in
  put_seqspec c_transpose 1 ;;
  put (byte_of_bool transpose) ;;
  (if negb (sequence.color s =? c_seq_color_none) then
     put_seqspec c_seq_color 1 ;;
     put (sequence.color s)
   else ret tt) ;;
  (if sequence.loop_count_max s >? 0 then
     put_seqspec c_seq_loopcount 2 ;;
     add_short (to_ushort (sequence.loop_count_max s))
   else ret tt).

(** *** Song export *)

(** What the body of the event loop of [track::song_fill_seq_event]
    decides for one event: [None] is [continue], otherwise the copy of the
    event to write and its time-stamp. *)
Definition replayed : Type := option (event * Z).

(** The test that ends the loop body: a non-note event at or past the end
    of the trigger is dropped. *)
Definition drop_past_end trig (used : list Z) e (timestamp : Z)
  : outcome (list Z * replayed) :=
  if (timestamp >=? trigger.tick_end trig) && negb (is_note e)
  then Ok (used, None)
  else Ok (used, Some (e, timestamp)).

(** The local copy of the event after
    [if (trig.transposed()) e.transpose_note(trig.transpose());] *)
Definition transposed_copy trig e : event :=
  if trigger.transposed trig then transpose_note (trigger.transpose trig) e
  else e.

(** The body of the event loop of [track::song_fill_seq_event], up to the
    computation of the delta time; [used] is [note_is_used]. *)
Definition replay_event trig (time_offset : Z) (used : list Z) e
  : outcome (list Z * replayed) :=
  let timestamp := timestamp e + time_offset in
  if timestamp >=? trigger.tick_start trig then
    if is_note e then
      let note := Z.to_nat (get_note e) in
      let e := transposed_copy trig e in
      if is_note_on e then
        if timestamp <=? trigger.tick_end trig then
          match used !! note with
          | Some count =>
              drop_past_end trig (<[note := count + 1]> used) e timestamp
          | None => Fault OutOfBounds
          end
        else Ok (used, None)
      else if is_note_off e then
        match used !! note with
        | Some count =>
            if count >? 0 then
              let used := <[note := count - 1]> used in
              let timestamp :=
                if timestamp >? trigger.tick_end trig
                then trigger.tick_end trig else timestamp in
              drop_past_end trig used e timestamp
            else Ok (used, None)
        | None => Fault OutOfBounds
        end
      else drop_past_end trig used e timestamp
    else drop_past_end trig used e timestamp
  else Ok (used, None).

(** One pass over the events of the pattern,
    [for (auto e : seq().events()) ...]; the state is [prev_timestamp]
    and [note_is_used]. *)
Fixpoint replay_pass s trig (time_offset : Z) (evs : list event)
    (st : Z * list Z) : M (Z * list Z) :=
  match evs with
  | [] => ret st
  | e :: rest =>
      let '(prev_timestamp, used) := st in
      match replay_event trig time_offset used e with
      | Fault f => fail f
      | Ok (used, None) => replay_pass s trig time_offset rest (prev_timestamp, used)
      | Ok (used, Some (e, timestamp)) =>
          let delta_time := timestamp - prev_timestamp in
          add_event s e delta_time ;;
          replay_pass s trig time_offset rest (timestamp, used)
      end
  end.

(** [for (int p = 0; p <= times_played; ++p, time_offset += len)], with
    [passes] the number of passes that remain. *)
Fixpoint replay_passes s trig (passes : nat) (time_offset : Z)
    (st : Z * list Z) : M (Z * list Z) :=
  match passes with
  | O => ret st
  | S passes' =>
      st <- replay_pass s trig time_offset (sequence.events s) st ;;
      replay_passes s trig passes' (time_offset + sequence.get_length s) st
  end.

(** [track::song_fill_seq_event (trig, prev_timestamp)] *)
Definition song_fill_seq_event s trig (prev_timestamp : Z) : M Z :=
  let len := sequence.get_length s in
  trig_offset <- pulse_rem (trigger.offset trig) len ;;
  start_offset <- pulse_rem (trigger.tick_start trig) len ;;
  let time_offset := trigger.tick_start trig + trig_offset - start_offset in
  quotient <- pulse_quot (trigger.length trig - 1) len ;;
  let times_played := int_of_pulse (1 + quotient) in
  let time_offset :=
    if trig_offset >? start_offset then time_offset - len else time_offset in
  let note_is_used := replicate c_notes_count 0 in
  st <- replay_passes s trig (Z.to_nat (times_played + 1)) time_offset
          (prev_timestamp, note_is_used) ;;
  ret (fst st).

(** [track::song_fill_seq_trigger (trig, length, prev_timestamp)] *)
Definition song_fill_seq_trigger (cfg : settings) s trig
    (length prev_timestamp : Z) : M unit :=
  put_seqspec c_triggers_ex (trigger_datasize c_triggers_ex) ;;
  add_long (to_ulong 0) ;;
  add_long (to_ulong (trigger.tick_end trig)) ;;
  add_long (to_ulong 0) ;;
  fill_proprietary cfg s ;;
  fill_meta_track_end (length - prev_timestamp).

(** [for (auto & t : trigs) last_ts = song_fill_seq_event(t, last_ts);] *)
Fixpoint song_fill_triggers s (trigs : list trigger.t) (last_ts : Z) : M Z :=
  match trigs with
  | [] => ret last_ts
  | t :: rest =>
      last_ts <- song_fill_seq_event s t last_ts ;;
      song_fill_triggers s rest last_ts
  end.

(** The end tick of the exported song: the end of the last trigger,
    snapped to the last tick of its measure. *)
Definition snapped_end (seqend measticks : Z) : Z :=
  if measticks >? 0 then
    let remainder := Z.rem seqend measticks in
    if negb (remainder =? measticks - 1)
    then seqend + (measticks - remainder - 1)
    else seqend
  else seqend.

(** [track::song_fill_track (track, standalone)] *)
Definition song_fill_track (cfg : settings) s (track : Z) (standalone : bool)
  : M bool :=
  let result := sequence.is_exportable s in
  if result then
    clear ;;
    (if standalone then
       fill_seq_number track ;;
       fill_seq_name (sequence.name s)
     else ret tt) ;;
    let trigs := sequence.get_triggers s in
    last_ts <- song_fill_triggers s trigs 0 ;;
    match last trigs with
    | None => fail OutOfBounds
    | Some ender =>
        let seqend := trigger.tick_end ender in
        let measticks := sequence.measures_to_ticks s 1 in
        let seqend := snapped_end seqend measticks in
        song_fill_seq_trigger cfg s ender seqend last_ts ;;
        ret result
    end
  else ret result.

(** *** Regular export *)

(** The event loop of [track::fill].  The result is [prevtimestamp] and
    whether the loop was left through [errprint (...); break;]. *)
Fixpoint fill_events s (evl : list event) (prevtimestamp : Z) : M (Z * bool) :=
  match evl with
  | [] => ret (prevtimestamp, false)
  | e :: rest =>
      let timestamp := timestamp e in
      let deltatime := timestamp - prevtimestamp in
      if deltatime <? 0 then ret (prevtimestamp, true)
      else
        add_event s e deltatime ;;
        fill_events s rest timestamp
  end.

(** [for (auto & t : triggerlist) { add_long (...); ... }] of
    [track::fill]. *)
Fixpoint fill_triggers (transtriggers : bool) (triggerlist : list trigger.t)
  : M unit :=
  match triggerlist with
  | [] => ret tt
  | t :: rest =>
      add_long (to_ulong (trigger.tick_start t)) ;;
      add_long (to_ulong (trigger.tick_end t)) ;;
      add_long (to_ulong (trigger.offset t)) ;;
      (if transtriggers then add_byte (transpose_byte t) else ret tt) ;;
      fill_triggers transtriggers rest
  end.

(** The choice of the trigger tag in [track::fill]. *)
Definition use_transtriggers (cfg : settings) s : bool :=
  let transtriggers := negb (save_old_triggers cfg) in
  if transtriggers then sequence.any_trigger_transposed s else transtriggers.

(** The SeqSpec section of [track::fill]. *)
Definition fill_seqspec (cfg : settings) s : M unit :=
  let triggerlist := sequence.triggerlist s in
  let transtriggers := use_transtriggers cfg s in
  (if transtriggers then
     let datasize := sequence.triggers_datasize s c_trig_transpose in
     put_seqspec c_trig_transpose datasize
   else
     let datasize := sequence.triggers_datasize s c_triggers_ex in
     put_seqspec c_triggers_ex datasize) ;;
  fill_triggers transtriggers triggerlist ;;
  fill_proprietary cfg s.

(** [track::fill (track, p, doseqspec)]; the result tells whether the
    "Bad delta-time" diagnostic was printed. *)
Definition fill (cfg : settings) s (track : Z) (doseqspec : bool) : M bool :=
  let evl := sort (sequence.events s) in
  (if doseqspec then fill_seq_number track else ret tt) ;;
  fill_seq_name (sequence.name s) ;;
  loop <- fill_events s evl 0 ;;
  let '(prevtimestamp, bad_delta) := loop in
  (if doseqspec then fill_seqspec cfg s else ret tt) ;;
  let len := sequence.get_length s in
  let deltatime :=
    if len <? prevtimestamp then 0 else len - prevtimestamp in
  fill_meta_track_end deltatime ;;
  ret bad_delta.

End Track.

(** ** A concrete platform and event model, for running the exporter *)

Module seq66.

(** Modelled from the spec: class [event] is absent from the source tree.
    An event has a status, a channel, two data bytes or a variable-length
    payload, and a time-stamp; the status tells the family (channel voice
    below 0xF0, meta 0xFF, SysEx 0xF0).  For a meta event [channel] holds
    the meta type. *)
Record event : Type := make_event {
  ev_timestamp : Z;
  ev_status : Z;
  ev_channel : Z;
  ev_d0 : Z;
  ev_d1 : Z;
  ev_message : list Z;
}.

(** Modelled from the spec: [event::is_note] is absent from the source
    tree; where [track::song_fill_seq_event] calls it, the comments say
    that it includes aftertouch. *)
Definition ev_is_note (e : event) : bool :=
  let m := mask_status (ev_status e) in
  (m =? EVENT_NOTE_ON) || (m =? EVENT_NOTE_OFF) || (m =? EVENT_AFTERTOUCH).

(** Modelled from the spec: [event::transpose_note] is absent from the
    source tree; it shifts the note number and clamps it to [0, 127]. *)
Definition ev_transpose_note (tn : Z) (e : event) : event :=
  make_event (ev_timestamp e) (ev_status e) (ev_channel e)
    (Z.max 0 (Z.min 127 (ev_d0 e + tn))) (ev_d1 e) (ev_message e).

(** Modelled from the spec: [eventlist::sort] is absent from the source
    tree; a stable sort by time-stamp, here by insertion. *)
Fixpoint insert_by_time (e : event) (evl : list event) : list event :=
  match evl with
  | [] => [e]
  | x :: rest =>
      if ev_timestamp e <? ev_timestamp x then e :: x :: rest
      else x :: insert_by_time e rest
  end.

Definition sort_by_time (evl : list event) : list event :=
  fold_left (fun sorted e => insert_by_time e sorted) evl [].

#[export] Instance event_api : EventApi event := {
  timestamp := ev_timestamp;
  get_status := ev_status;
  channel := ev_channel;
  data := fun i e => if i =? 0 then ev_d0 e else ev_d1 e;
  is_ex_data := fun e => (ev_status e =? 0xFF) || (ev_status e =? 0xF0);
  is_meta := fun e => ev_status e =? 0xFF;
  has_channel := fun e => (0x80 <=? ev_status e) && (ev_status e <? 0xF0);
  is_note := ev_is_note;
  is_note_on := fun e => mask_status (ev_status e) =? EVENT_NOTE_ON;
  is_note_off := fun e => mask_status (ev_status e) =? EVENT_NOTE_OFF;
  get_note := ev_d0;
  transpose_note := ev_transpose_note;
  get_message := ev_message;
  sort := sort_by_time;
}.

Definition ulong_32 : 32 <= 32 := Z.le_refl 32.

(** Modelled from the spec: the constants of the file format are absent
    from the source tree.  The tags are those of the SeqSpec registry
    ([0x242400nn]); a trigger takes three 4-byte values, and one more byte
    under the transposed tag; the null channel is 0x80; a measure has
    [4 * ppqn * bpb / bw] ticks. *)
#[export] Instance platform : Platform := {
  ulong_bits := 32;
  ulong_bits_ge_32 := ulong_32;
  is_null_channel := fun c => c =? 0x80;
  c_notes_count := 128;
  calc_measures_to_ticks := fun bpb ppqn bw measures =>
    if bw >? 0 then Z.quot (4 * ppqn * measures * bpb) bw else 0;
  seq_valid := fun n => (0 <=? n) && (n <? 1024);
  c_key_of_C := 0;
  c_scales_off := 0;
  c_midibus := 0x24240001;
  c_midichannel := 0x24240002;
  c_timesig := 0x24240006;
  c_triggers_ex := 0x24240008;
  c_musickey := 0x24240011;
  c_musicscale := 0x24240012;
  c_backsequence := 0x24240013;
  c_transpose := 0x24240014;
  c_seq_color := 0x2424001B;
  c_seq_loopcount := 0x2424001D;
  c_trig_transpose := 0x24240020;
  trigger_datasize := fun tag => if tag =? 0x24240020 then 13 else 12;
  triggers_list_datasize := fun trigs tag =>
    Z.of_nat (List.length trigs) * (if tag =? 0x24240020 then 13 else 12);
  transpose_byte := fun trig => (trigger.transpose trig + 0x40) mod 256;
}.

(** A pattern of length 192 with default metadata. *)
Definition pattern (evl : list event) (trigs : list trigger.t)
  : sequence.t event :=
  {| sequence.m_events := evl;
     sequence.m_triggers := trigs;
     sequence.m_name := String.EmptyString;
     sequence.m_length := 192;
     sequence.m_last_tick := 0;
     sequence.m_song_mute := false;
     sequence.m_free_channel := false;
     sequence.m_midi_channel := 0;
     sequence.m_nominal_bus := 0;
     sequence.m_time_beats_per_measure := 4;
     sequence.m_time_beat_width := 4;
     sequence.m_ppqn := 192;
     sequence.m_musical_key := 0;
     sequence.m_musical_scale := 0;
     sequence.m_background_sequence := 0x800;
     sequence.m_transposable := true;
     sequence.m_seq_color := -1;
     sequence.m_loop_count_max := 0 |}.

(** The same pattern with another length. *)
Definition with_length (len : Z) (s : sequence.t event) : sequence.t event :=
  {| sequence.m_events := sequence.m_events s;
     sequence.m_triggers := sequence.m_triggers s;
     sequence.m_name := sequence.m_name s;
     sequence.m_length := len;
     sequence.m_last_tick := sequence.m_last_tick s;
     sequence.m_song_mute := sequence.m_song_mute s;
     sequence.m_free_channel := sequence.m_free_channel s;
     sequence.m_midi_channel := sequence.m_midi_channel s;
     sequence.m_nominal_bus := sequence.m_nominal_bus s;
     sequence.m_time_beats_per_measure := sequence.m_time_beats_per_measure s;
     sequence.m_time_beat_width := sequence.m_time_beat_width s;
     sequence.m_ppqn := sequence.m_ppqn s;
     sequence.m_musical_key := sequence.m_musical_key s;
     sequence.m_musical_scale := sequence.m_musical_scale s;
     sequence.m_background_sequence := sequence.m_background_sequence s;
     sequence.m_transposable := sequence.m_transposable s;
     sequence.m_seq_color := sequence.m_seq_color s;
     sequence.m_loop_count_max := sequence.m_loop_count_max s |}.

Definition settings0 : settings :=
  {| save_old_triggers := false; global_seq_feature := false |}.

Definition note_on (ts note : Z) : event := make_event ts 0x90 0 note 100 [].
Definition note_off (ts note : Z) : event := make_event ts 0x80 0 note 0 [].

(** A two-note pattern of 192 ticks under the trigger from 100 to 300 with
    offset 50. *)
Definition trigger_100_300 : trigger.t := trigger.make 100 300 50 0.

Definition two_notes : sequence.t event :=
  pattern [note_on 0 60; note_off 96 60] [trigger_100_300].

(** A pattern whose first event lies before tick 0. *)
Definition early_note : sequence.t event :=
  pattern [note_on (-5) 60; note_off 96 60] [trigger.make 0 191 0 0].

End seq66.

(** ** Vocabulary of the specification *)

(** [writes m a out]: whatever the container holds, [m] returns [a] and
    appends exactly the bytes [out]. *)
Definition writes {A} (m : M A) (a : A) (out : list Z) : Prop :=
  forall bytes, m bytes = Ok (a, bytes ++ out).

(** The bytes that [m] produces on an empty container. *)
Definition output {A} (m : M A) : list Z :=
  match m [] with
  | Ok (_, out) => out
  | Fault _ => []
  end.

(** The bytes of a variable-length quantity as [add_varinum] writes it. *)
Definition varinum_bytes `{Platform} (v : Z) : list Z :=
  output (add_varinum v).

(** The data bytes of a channel event: two for note off, note on,
    aftertouch, control change and pitch wheel, one for program change and
    channel pressure. *)
Definition data_bytes {event} `{EventApi event} (e : event) : list Z :=
  if has_channel e then
    let m := mask_status (get_status e) in
    if (m =? EVENT_NOTE_OFF) || (m =? EVENT_NOTE_ON)
       || (m =? EVENT_AFTERTOUCH) || (m =? EVENT_CONTROL_CHANGE)
       || (m =? EVENT_PITCH_WHEEL)
    then [to_byte (data 0 e); to_byte (data 1 e)]
    else if (m =? EVENT_PROGRAM_CHANGE) || (m =? EVENT_CHANNEL_PRESSURE)
    then [to_byte (data 0 e)]
    else []
  else [].

(** The four bytes of [add_long] and the two bytes of [add_short]. *)
Definition long_bytes (x : Z) : list Z :=
  [to_byte (Z.shiftr (Z.land x 0xFF000000) 24);
   to_byte (Z.shiftr (Z.land x 0x00FF0000) 16);
   to_byte (Z.shiftr (Z.land x 0x0000FF00) 8);
   to_byte (Z.land x 0x000000FF)].

Definition short_bytes (x : Z) : list Z :=
  [to_byte (Z.shiftr (Z.land x 0x0000FF00) 8);
   to_byte (Z.land x 0x000000FF)].

(** One SeqSpec block: the meta header for [payload] and the tag, then
    the payload. *)
Definition seqspec_block {event} `{Platform} `{EventApi event}
    (spec : Z) (payload : list Z) : list Z :=
  output (put_seqspec spec (Z.of_nat (List.length payload))) ++ payload.


(** The passes of a song replay, one per time offset of [offsets], each
    over all events of the pattern. *)
Fixpoint replay_at_offsets {event} `{Platform} `{EventApi event}
    (s : sequence.t event) (trig : trigger.t) (offsets : list Z)
    (st : Z * list Z) : M (Z * list Z) :=
  match offsets with
  | [] => ret st
  | time_offset :: rest =>
      st <- replay_pass s trig time_offset (sequence.events s) st ;;
      replay_at_offsets s trig rest st
  end.

(** The events of [evl] that come before the first negative delta time,
    each with its delta time; [prev] is the time-stamp before [evl]. *)
Fixpoint exported_events {event} `{EventApi event}
    (evl : list event) (prev : Z) : list (event * Z) :=
  match evl with
  | [] => []
  | e :: rest =>
      if timestamp e - prev <? 0 then []
      else (e, timestamp e - prev) :: exported_events rest (timestamp e)
  end.

(** The time-stamp of the last event before the first negative delta. *)
Fixpoint last_timestamp {event} `{EventApi event}
    (evl : list event) (prev : Z) : Z :=
  match evl with
  | [] => prev
  | e :: rest =>
      if timestamp e - prev <? 0 then prev
      else last_timestamp rest (timestamp e)
  end.

(** Whether some delta time of [evl] is negative. *)
Fixpoint bad_delta {event} `{EventApi event}
    (evl : list event) (prev : Z) : bool :=
  match evl with
  | [] => false
  | e :: rest =>
      if timestamp e - prev <? 0 then true
      else bad_delta rest (timestamp e)
  end.

(** The bytes of a list of events with their delta times. *)
Definition events_bytes {event} `{Platform} `{EventApi event}
    (s : sequence.t event) (written : list (event * Z)) : list Z :=
  concat (map (fun ed => output (add_event s (fst ed) (snd ed))) written).

(** The bytes of one trigger in the trigger block of a track. *)
Definition trigger_bytes `{Platform} (with_transpose : bool)
    (trig : trigger.t) : list Z :=
  long_bytes (to_ulong (trigger.tick_start trig))
  ++ long_bytes (to_ulong (trigger.tick_end trig))
  ++ long_bytes (to_ulong (trigger.offset trig))
  ++ (if with_transpose then [to_byte (transpose_byte trig)] else []).

(** The value that a list of bytes carries in its seven-bit groups, most
    significant group first. *)
Definition vlq_value (bs : list Z) : Z :=
  fold_left (fun acc b => acc * 128 + Z.land b 0x7F) bs 0.

(** The value of a list of bytes read as a number in base 256, least
    significant byte first: the content of [buffer] in [add_varinum]. *)
Definition le_value (bs : list Z) : Z :=
  fold_right (fun b acc => b + 256 * acc) 0 bs.

(** The first loop of [add_varinum] on the list of bytes that [buffer]
    holds: each turn puts the next group, with bit 7 set, in front. *)
Fixpoint pack_list (turns : nat) (v : Z) (bs : list Z) : list Z :=
  match turns with
  | O => bs
  | S turns' =>
      let v := v / 128 in
      if v =? 0 then bs
      else pack_list turns' v ((v mod 128 + 128) :: bs)
  end.

(** The sum of the delta times of a list of written events. *)
Definition total_delta {event} (written : list (event * Z)) : Z :=
  fold_right (fun ed acc => snd ed + acc) 0 written.

(** Whether the time-stamps of [evl] never go down, starting from
    [prev]. *)
Fixpoint ordered_from {event} `{EventApi event} (prev : Z)
    (evl : list event) : bool :=
  match evl with
  | [] => true
  | e :: rest => (prev <=? timestamp e) && ordered_from (timestamp e) rest
  end.

(** Every event of [evl] with the distance to the event before it. *)
Fixpoint with_deltas {event} `{EventApi event} (prev : Z)
    (evl : list event) : list (event * Z) :=
  match evl with
  | [] => []
  | e :: rest => (e, timestamp e - prev) :: with_deltas (timestamp e) rest
  end.

(** The note of every note event of [evs] has an entry in a table of [n]
    counts. *)
Definition notes_below {event} `{EventApi event} (n : nat)
    (evs : list event) : Prop :=
  Forall (fun e => is_note e = true -> 0 <= get_note e < Z.of_nat n) evs.

(** The time offset of the first replay pass of a trigger over a pattern
    of length [len], and the number of passes, as
    [track::song_fill_seq_event] computes them for [len] other than
    zero. *)
Definition first_time_offset (len : Z) (trig : trigger.t) : Z :=
  let trig_offset := Z.rem (trigger.offset trig) len in
  let start_offset := Z.rem (trigger.tick_start trig) len in
  let time_offset := trigger.tick_start trig + trig_offset - start_offset in
  if trig_offset >? start_offset then time_offset - len else time_offset.

Definition pass_count (len : Z) (trig : trigger.t) : nat :=
  Z.to_nat (int_of_pulse (1 + Z.quot (trigger.length trig - 1) len) + 1).

(** The events that one replay pass hands to [add_event], each with its
    delta time, and the state after the pass. *)
Fixpoint replay_trace {event} `{EventApi event} (trig : trigger.t)
    (time_offset : Z) (evs : list event) (st : Z * list Z)
  : outcome (list (event * Z) * (Z * list Z)) :=
  match evs with
  | [] => Ok ([], st)
  | e :: rest =>
      match replay_event trig time_offset (snd st) e with
      | Fault f => Fault f
      | Ok (used, None) => replay_trace trig time_offset rest (fst st, used)
      | Ok (used, Some (e', ts)) =>
          match replay_trace trig time_offset rest (ts, used) with
          | Ok (written, st') => Ok ((e', ts - fst st) :: written, st')
          | Fault f => Fault f
          end
      end
  end.

(** The same for a number of passes over the events [evs] of a pattern of
    length [len]. *)
Fixpoint replay_traces {event} `{EventApi event} (trig : trigger.t)
    (len : Z) (evs : list event) (passes : nat) (time_offset : Z)
    (st : Z * list Z) : outcome (list (event * Z) * (Z * list Z)) :=
  match passes with
  | O => Ok ([], st)
  | S passes' =>
      match replay_trace trig time_offset evs st with
      | Fault f => Fault f
      | Ok (written, st) =>
          match replay_traces trig len evs passes' (time_offset + len) st with
          | Ok (written', st') => Ok (written ++ written', st')
          | Fault f => Fault f
          end
      end
  end.

(** Every note event of [evs], transposed as the trigger asks, is a note
    on or a note off. *)
Definition plain_notes {event} `{EventApi event} (trig : trigger.t)
    (evs : list event) : Prop :=
  Forall
    (fun e =>
       is_note e = true ->
       is_note_on (transposed_copy trig e) = true
       \/ is_note_off (transposed_copy trig e) = true)
    evs.

(** Whether the triggers follow one another: none starts before [lo] or
    before the end of the one before it, and none ends before it starts. *)
Fixpoint triggers_in_order (lo : Z) (trigs : list trigger.t) : bool :=
  match trigs with
  | [] => true
  | t :: rest =>
      (lo <=? trigger.tick_start t)
      && (trigger.tick_start t <=? trigger.tick_end t)
      && triggers_in_order (trigger.tick_end t) rest
  end.

(** The events that the replay of a list of triggers hands to [add_event],
    each with its delta time, and the last time-stamp; the pattern has a
    length other than zero. *)
Fixpoint song_trace {event} `{Platform} `{EventApi event}
    (s : sequence.t event) (trigs : list trigger.t) (last_ts : Z)
  : outcome (list (event * Z) * Z) :=
  match trigs with
  | [] => Ok ([], last_ts)
  | t :: rest =>
      match
        replay_traces t (sequence.m_length s) (sequence.m_events s)
          (pass_count (sequence.m_length s) t)
          (first_time_offset (sequence.m_length s) t)
          (last_ts, replicate c_notes_count 0)
      with
      | Fault f => Fault f
      | Ok (written, st) =>
          match song_trace s rest (fst st) with
          | Ok (written', final) => Ok (written ++ written', final)
          | Fault f => Fault f
          end
      end
  end.

(** * Properties *)

(** ** Bit operations as arithmetic *)

Lemma shiftr_7 (x : Z) : Z.shiftr x 7 = x / 128.
Proof. rewrite Z.shiftr_div_pow2 by lia. reflexivity. Qed.

Lemma shiftr_8 (x : Z) : Z.shiftr x 8 = x / 256.
Proof. rewrite Z.shiftr_div_pow2 by lia. reflexivity. Qed.

Lemma shiftl_8 (x : Z) : Z.shiftl x 8 = x * 256.
Proof. rewrite Z.shiftl_mul_pow2 by lia. reflexivity. Qed.

Lemma land_127 (x : Z) : Z.land x 0x7F = x mod 128.
Proof. change 0x7F with (Z.ones 7). rewrite Z.land_ones by lia. reflexivity. Qed.

Lemma land_255 (x : Z) : Z.land x 0xFF = x mod 256.
Proof. change 0xFF with (Z.ones 8). rewrite Z.land_ones by lia. reflexivity. Qed.

Lemma land_128 (x : Z) : Z.land x 0x80 = 128 * ((x / 128) mod 2).
Proof.
  change (Z.land x (2 ^ 7) = 2 ^ 7 * ((x / 2 ^ 7) mod 2 ^ 1)).
  apply Z.bits_inj'. intros n Hn.
  rewrite Z.land_spec, Z.pow2_bits_eqb by lia.
  rewrite (Z.mul_comm (2 ^ 7)), Z.mul_pow2_bits by lia.
  destruct (Z.eqb_spec 7 n) as [<- | Hne].
  - rewrite andb_true_r. change (7 - 7) with 0.
    rewrite Z.mod_pow2_bits_low by lia.
    rewrite Z.div_pow2_bits by lia. reflexivity.
  - rewrite andb_false_r. symmetry.
    destruct (Z.ltb_spec n 7).
    + apply Z.testbit_neg_r. lia.
    + apply Z.mod_pow2_bits_high. lia.
Qed.

Lemma lor_disjoint_add (a b : Z) : Z.land a b = 0 -> Z.lor a b = a + b.
Proof.
  intros Hd. rewrite <- Z.lxor_lor by exact Hd.
  symmetry. apply Z.add_nocarry_lxor. exact Hd.
Qed.

Lemma lor_flag (g : Z) : 0 <= g < 128 -> Z.lor g 0x80 = g + 128.
Proof.
  intros Hg. apply lor_disjoint_add.
  rewrite land_128. rewrite Z.div_small by lia. reflexivity.
Qed.

Lemma lor_low_byte (b y : Z) : 0 <= y < 256 -> Z.lor (b * 256) y = b * 256 + y.
Proof.
  intros Hy. apply lor_disjoint_add.
  apply Z.bits_inj'. intros n Hn.
  rewrite Z.land_spec, Z.bits_0. change 256 with (2 ^ 8).
  destruct (Z.ltb_spec n 8).
  - rewrite Z.mul_pow2_bits_low by lia. reflexivity.
  - replace y with (y mod 2 ^ 8) by (apply Z.mod_small; exact Hy).
    rewrite Z.mod_pow2_bits_high by lia. apply andb_false_r.
Qed.

Lemma lor_below (a b n : Z) :
  0 <= n -> 0 <= a < 2 ^ n -> 0 <= b < 2 ^ n -> 0 <= Z.lor a b < 2 ^ n.
Proof.
  intros Hn Ha Hb. split; [apply Z.lor_nonneg; lia |].
  destruct (Z.eq_dec (Z.lor a b) 0) as [-> | Hnz]; [lia |].
  assert (Hpos : 0 < Z.lor a b) by (pose proof (Z.lor_nonneg a b); lia).
  apply Z.log2_lt_pow2; [exact Hpos |].
  rewrite Z.log2_lor by lia.
  destruct (Z.eq_dec a 0) as [-> | Ha0], (Z.eq_dec b 0) as [-> | Hb0];
    try (rewrite Z.lor_0_l in Hnz || rewrite Z.lor_0_r in Hnz);
    try lia;
    repeat match goal with
           | |- context [Z.log2 0] => change (Z.log2 0) with 0
           end.
  - assert (Z.log2 b < n) by (apply Z.log2_lt_pow2; lia).
    pose proof (Z.log2_nonneg b). lia.
  - assert (Z.log2 a < n) by (apply Z.log2_lt_pow2; lia).
    pose proof (Z.log2_nonneg a). lia.
  - assert (Z.log2 a < n) by (apply Z.log2_lt_pow2; lia).
    assert (Z.log2 b < n) by (apply Z.log2_lt_pow2; lia). lia.
Qed.

(** Powers of two as numerals, then linear arithmetic over quotients and
    remainders by constants. *)
Ltac pow2_numerals :=
  change (2 ^ 7) with 128 in *;
  change (2 ^ 8) with 256 in *;
  change (2 ^ 14) with 16384 in *;
  change (2 ^ 21) with 2097152 in *;
  change (2 ^ 24) with 16777216 in *;
  change (2 ^ 28) with 268435456 in *;
  change (2 ^ 32) with 4294967296 in *.

Ltac divmod := pow2_numerals; Z.div_mod_to_equations; lia.

(** Equality of two byte lists of the same shape, element by element. *)
Ltac bytes_eq :=
  repeat (apply (f_equal2 cons); [divmod |]); reflexivity.

(** ** The container monad *)

Lemma writes_ret {A} (a : A) : writes (ret a) a [].
Proof. intros bytes. unfold ret. rewrite app_nil_r. reflexivity. Qed.

Lemma writes_put (b : Z) : writes (put b) tt [to_byte b].
Proof. intros bytes. reflexivity. Qed.

Lemma writes_bind {A B} (m : M A) (k : A -> M B) a b out1 out2 :
  writes m a out1 -> writes (k a) b out2 -> writes (bind m k) b (out1 ++ out2).
Proof.
  intros Hm Hk bytes. unfold bind. rewrite Hm, Hk, app_assoc. reflexivity.
Qed.

Lemma writes_put_then {A} (b : Z) (m : M A) a out :
  writes m a out -> writes (put b ;; m) a (to_byte b :: out).
Proof. intros Hm. apply (writes_bind _ _ tt a [to_byte b] out (writes_put b) Hm). Qed.

Lemma writes_out {A} (m : M A) a out out' :
  writes m a out -> out = out' -> writes m a out'.
Proof. intros Hm <-. exact Hm. Qed.

Lemma writes_output {A} (m : M A) a out : writes m a out -> output m = out.
Proof. intros Hm. unfold output. rewrite (Hm []). reflexivity. Qed.

Lemma writes_self {A} (m : M A) a out : writes m a out -> writes m a (output m).
Proof. intros Hm. rewrite (writes_output m a out Hm). exact Hm. Qed.

Lemma bind_ok {A B} (m : M A) (k : A -> M B) a bytes bytes' :
  m bytes = Ok (a, bytes') -> bind m k bytes = k a bytes'.
Proof. intros Hm. unfold bind. rewrite Hm. reflexivity. Qed.

Lemma writes_put_bytes (message : list Z) :
  writes (put_bytes message) tt (map to_byte message).
Proof.
  induction message as [| b rest IH]; simpl.
  - apply writes_ret.
  - apply (writes_bind _ _ tt tt [to_byte b]); [apply writes_put | exact IH].
Qed.

(** ** The variable-length quantity writer runs to completion *)

Section CodecFacts.

Context `{Platform}.

Lemma ulong_bits_nonneg : 0 <= ulong_bits.
Proof. pose proof ulong_bits_ge_32. lia. Qed.

Lemma ulong_range_32 : 2 ^ 32 <= 2 ^ ulong_bits.
Proof. apply Z.pow_le_mono_r; [lia | apply ulong_bits_ge_32]. Qed.

Lemma to_ulong_range (x : Z) : 0 <= to_ulong x < 2 ^ ulong_bits.
Proof.
  unfold to_ulong. apply Z.mod_pos_bound.
  pose proof ulong_range_32. lia.
Qed.

Lemma to_ulong_small (x : Z) : 0 <= x < 2 ^ 32 -> to_ulong x = x.
Proof.
  intros Hx. unfold to_ulong. apply Z.mod_small.
  pose proof ulong_range_32. lia.
Qed.

Lemma halve_below (v : Z) (n : nat) :
  0 <= v < 2 ^ Z.of_nat (S n) -> 0 <= v / 2 < 2 ^ Z.of_nat n.
Proof.
  intros Hv. rewrite Nat2Z.inj_succ, Z.pow_succ_r in Hv by lia.
  split; [apply Z.div_pos; lia | apply Z.div_lt_upper_bound; lia].
Qed.

Lemma shrink_below (v d : Z) (n : nat) :
  2 <= d -> 0 <= v < 2 ^ Z.of_nat (S n) -> 0 <= v / d < 2 ^ Z.of_nat n.
Proof.
  intros Hd Hv. pose proof (halve_below v n Hv) as Hh.
  split; [apply Z.div_pos; lia |].
  apply Z.le_lt_trans with (v / 2); [| lia].
  apply Z.div_le_compat_l; lia.
Qed.

Lemma pack_groups_total (n : nat) : forall v buffer,
  0 <= v < 2 ^ Z.of_nat n ->
  0 <= buffer < 2 ^ ulong_bits ->
  exists packed,
    pack_groups (S n) v buffer = Some packed /\ 0 <= packed < 2 ^ ulong_bits.
Proof.
  induction n as [| n IH]; intros v buffer Hv Hb.
  - assert (v = 0) as -> by (change (2 ^ Z.of_nat 0) with 1 in Hv; lia).
    exists buffer. split; [reflexivity | exact Hb].
  - cbn [pack_groups]. rewrite shiftr_7.
    destruct (Z.eqb_spec (v / 128) 0) as [Hz | Hnz].
    + exists buffer. split; [reflexivity | exact Hb].
    + apply IH.
      * apply shrink_below; [lia | exact Hv].
      * apply lor_below.
        -- apply ulong_bits_nonneg.
        -- apply to_ulong_range.
        -- rewrite land_127, lor_flag by (apply Z.mod_pos_bound; lia).
           pose proof (Z.mod_pos_bound (v / 128) 128) as Hm.
           pose proof ulong_range_32. lia.
Qed.

Lemma emit_groups_total (n : nat) : forall buffer,
  0 <= buffer < 2 ^ Z.of_nat n ->
  exists out, writes (emit_groups (S n) buffer) tt out.
Proof.
  induction n as [| n IH]; intros buffer Hb.
  - assert (buffer = 0) as -> by (change (2 ^ Z.of_nat 0) with 1 in Hb; lia).
    exists [0]. intros bytes. reflexivity.
  - cbn [emit_groups].
    destruct (Z.land buffer 128 =? 0) eqn:Hflag.
    + eexists. eapply writes_bind; [apply writes_put | apply writes_ret].
    + destruct (IH (Z.shiftr buffer 8)) as [out Hout].
      { rewrite shiftr_8. apply shrink_below; [lia | exact Hb]. }
      eexists. eapply writes_bind; [apply writes_put | exact Hout].
Qed.

Lemma add_varinum_total (v : Z) :
  0 <= v < 2 ^ ulong_bits -> exists out, writes (add_varinum v) tt out.
Proof.
  intros Hv. unfold add_varinum, loop_fuel.
  pose proof ulong_bits_nonneg as Hw.
  destruct (pack_groups_total (Z.to_nat ulong_bits) v (Z.land v 127))
    as (packed & -> & Hp).
  - rewrite Z2Nat.id by exact Hw. exact Hv.
  - rewrite land_127. pose proof (Z.mod_pos_bound v 128).
    pose proof ulong_range_32. lia.
  - apply emit_groups_total. rewrite Z2Nat.id by exact Hw. exact Hp.
Qed.

Lemma add_varinum_writes (v : Z) :
  0 <= v < 2 ^ ulong_bits -> writes (add_varinum v) tt (varinum_bytes v).
Proof.
  intros Hv. destruct (add_varinum_total v Hv) as [out Hout].
  apply (writes_self _ _ _ Hout).
Qed.

Lemma add_varinum_to_ulong (x : Z) :
  writes (add_varinum (to_ulong x)) tt (varinum_bytes (to_ulong x)).
Proof. apply add_varinum_writes, to_ulong_range. Qed.

End CodecFacts.

(** ** The shape of a variable-length quantity *)

Section VarinumShape.

Context `{Platform}.

Lemma varinum_bytes_unique (v : Z) (out : list Z) :
  writes (add_varinum v) tt out -> varinum_bytes v = out.
Proof. apply writes_output. Qed.

Lemma pack_groups_done (fuel : nat) (v buffer : Z) :
  v / 128 = 0 -> pack_groups (S fuel) v buffer = Some buffer.
Proof. intros Hz. cbn [pack_groups]. rewrite shiftr_7, Hz. reflexivity. Qed.

Lemma pack_groups_more (fuel : nat) (v buffer : Z) :
  v / 128 <> 0 -> 0 <= buffer < 2 ^ 24 ->
  pack_groups (S fuel) v buffer =
  pack_groups fuel (v / 128) (buffer * 256 + ((v / 128) mod 128 + 128)).
Proof.
  intros Hnz Hb. cbn [pack_groups]. rewrite shiftr_7.
  destruct (Z.eqb_spec (v / 128) 0) as [Hz | _]; [contradiction |].
  pose proof (Z.mod_pos_bound (v / 128) 128) as Hm.
  rewrite shiftl_8, to_ulong_small by lia.
  rewrite land_127, lor_flag by lia.
  rewrite lor_low_byte by lia. reflexivity.
Qed.

Lemma put_low_byte (buffer : Z) :
  put (Z.land (to_byte buffer) 0xFF) = put (buffer mod 256).
Proof.
  unfold put, to_byte. rewrite land_255.
  rewrite !Z.mod_mod by lia. reflexivity.
Qed.

Lemma emit_groups_done (fuel : nat) (buffer : Z) :
  buffer mod 256 < 128 ->
  writes (emit_groups (S fuel) buffer) tt [buffer mod 256].
Proof.
  intros Hlow. cbn [emit_groups]. rewrite put_low_byte, land_128.
  assert ((buffer / 128) mod 2 = 0) as -> by divmod.
  change (128 * 0 =? 0) with true. cbv iota.
  eapply writes_out.
  - eapply writes_bind; [apply writes_put | apply writes_ret].
  - unfold to_byte. rewrite Z.mod_mod by lia. reflexivity.
Qed.

Lemma emit_groups_more (fuel : nat) (buffer : Z) (out : list Z) :
  128 <= buffer mod 256 ->
  writes (emit_groups fuel (buffer / 256)) tt out ->
  writes (emit_groups (S fuel) buffer) tt (buffer mod 256 :: out).
Proof.
  intros Hhigh Hrest. cbn [emit_groups]. rewrite put_low_byte, land_128.
  assert ((buffer / 128) mod 2 = 1) as -> by divmod.
  change (128 * 1 =? 0) with false. cbv iota. rewrite shiftr_8.
  eapply writes_out.
  - eapply writes_bind; [apply writes_put | exact Hrest].
  - unfold to_byte. rewrite Z.mod_mod by lia. reflexivity.
Qed.

Lemma loop_fuel_enough : exists k : nat, loop_fuel = (5 + k)%nat.
Proof.
  unfold loop_fuel. pose proof ulong_bits_ge_32.
  exists (Z.to_nat ulong_bits - 4)%nat. lia.
Qed.

Lemma varinum_bytes_1 (v : Z) :
  0 <= v < 2 ^ 7 -> varinum_bytes v = [v].
Proof.
  intros Hv. apply varinum_bytes_unique. unfold add_varinum.
  destruct loop_fuel_enough as [k ->]. cbn [Nat.add].
  rewrite land_127.
  rewrite pack_groups_done by divmod.
  eapply writes_out.
  - apply emit_groups_done. divmod.
  - bytes_eq.
Qed.

Lemma varinum_bytes_2 (v : Z) :
  2 ^ 7 <= v < 2 ^ 14 ->
  varinum_bytes v = [v / 2 ^ 7 + 128; v mod 2 ^ 7].
Proof.
  intros Hv. apply varinum_bytes_unique. unfold add_varinum.
  destruct loop_fuel_enough as [k ->]. cbn [Nat.add].
  rewrite land_127.
  rewrite pack_groups_more by divmod.
  rewrite pack_groups_done by divmod.
  eapply writes_out.
  - apply emit_groups_more; [divmod |].
    apply emit_groups_done. divmod.
  - bytes_eq.
Qed.

Lemma varinum_bytes_3 (v : Z) :
  2 ^ 14 <= v < 2 ^ 21 ->
  varinum_bytes v = [v / 2 ^ 14 + 128; (v / 2 ^ 7) mod 2 ^ 7 + 128; v mod 2 ^ 7].
Proof.
  intros Hv. apply varinum_bytes_unique. unfold add_varinum.
  destruct loop_fuel_enough as [k ->]. cbn [Nat.add].
  rewrite land_127.
  rewrite pack_groups_more by divmod.
  rewrite pack_groups_more by divmod.
  rewrite pack_groups_done by divmod.
  eapply writes_out.
  - apply emit_groups_more; [divmod |].
    apply emit_groups_more; [divmod |].
    apply emit_groups_done. divmod.
  - bytes_eq.
Qed.

Lemma varinum_bytes_4 (v : Z) :
  2 ^ 21 <= v < 2 ^ 28 ->
  varinum_bytes v =
  [v / 2 ^ 21 + 128; (v / 2 ^ 14) mod 2 ^ 7 + 128;
   (v / 2 ^ 7) mod 2 ^ 7 + 128; v mod 2 ^ 7].
Proof.
  intros Hv. apply varinum_bytes_unique. unfold add_varinum.
  destruct loop_fuel_enough as [k ->]. cbn [Nat.add].
  rewrite land_127.
  rewrite pack_groups_more by divmod.
  rewrite pack_groups_more by divmod.
  rewrite pack_groups_more by divmod.
  rewrite pack_groups_done by divmod.
  eapply writes_out.
  - apply emit_groups_more; [divmod |].
    apply emit_groups_more; [divmod |].
    apply emit_groups_more; [divmod |].
    apply emit_groups_done. divmod.
  - bytes_eq.
Qed.

End VarinumShape.

(** ** Reading a variable-length quantity back *)

Lemma decode_last (seen : nat) (acc b : Z) (rest : list Z) :
  0 <= b < 128 ->
  decode_varint_from seen acc (b :: rest) = Some (acc * 128 + b, rest).
Proof.
  intros Hb. cbn [decode_varint_from]. rewrite land_127, land_128.
  assert ((b / 128) mod 2 = 0) as -> by divmod.
  rewrite Z.mod_small by lia. reflexivity.
Qed.

Lemma decode_more (seen : nat) (acc b : Z) (rest : list Z) :
  128 <= b < 256 -> (S seen <= 4)%nat ->
  decode_varint_from seen acc (b :: rest) =
  decode_varint_from (S seen) (acc * 128 + (b - 128)) rest.
Proof.
  intros Hb Hseen. cbn [decode_varint_from]. rewrite land_127, land_128.
  assert ((b / 128) mod 2 = 1) as -> by divmod.
  assert (b mod 128 = b - 128) as -> by divmod.
  change (128 * 1 =? 0) with false. cbv iota.
  destruct (Nat.ltb_spec 4 (S seen)) as [Hlt | _]; [lia | reflexivity].
Qed.

Lemma decode_varint_from_bound (bs : list Z) :
  forall (seen : nat) (acc x : Z) (rest : list Z),
    0 <= acc ->
    decode_varint_from seen acc bs = Some (x, rest) ->
    x < (acc + 1) * 128 ^ Z.of_nat (List.length bs).
Proof.
  induction bs as [| b bs IH]; intros seen acc x rest Hacc Hdec.
  - discriminate Hdec.
  - cbn [decode_varint_from] in Hdec. rewrite land_127 in Hdec.
    pose proof (Z.mod_pos_bound b 128 ltac:(lia)) as Hg.
    cbn [List.length]. rewrite Nat2Z.inj_succ, Z.pow_succ_r by lia.
    assert (Hpow : 0 < 128 ^ Z.of_nat (List.length bs))
      by (apply Z.pow_pos_nonneg; lia).
    destruct (Z.land b 128 =? 0).
    + injection Hdec as <- _. nia.
    + destruct (4 <? S seen)%nat; [discriminate Hdec |].
      apply IH in Hdec; [| lia]. nia.
Qed.

Lemma decode_needs_length (v : Z) (bs : list Z) (k : nat) :
  decode_varint bs = Some (v, []) ->
  128 ^ Z.of_nat k <= v ->
  (k < List.length bs)%nat.
Proof.
  intros Hdec Hv. unfold decode_varint in Hdec.
  apply decode_varint_from_bound in Hdec; [| lia].
  destruct (Nat.lt_ge_cases k (List.length bs)) as [Hlt | Hge]; [exact Hlt |].
  assert (128 ^ Z.of_nat (List.length bs) <= 128 ^ Z.of_nat k)
    by (apply Z.pow_le_mono_r; lia).
  lia.
Qed.

Section VarinumClaim.

Context `{Platform}.

(** The weight [2 ^ (7 * k)] of a group as a numeral. *)
Ltac group_weight :=
  repeat match goal with
         | |- context [2 ^ (7 * Z.of_nat ?k)] =>
             let c := eval vm_compute in (2 ^ (7 * Z.of_nat k)) in
             change (2 ^ (7 * Z.of_nat k)) with c
         end.

(** The facts about the emitted byte [b] at index [i] of an explicit
    encoding. *)
Ltac byte_facts :=
  intros i b Hlook;
  repeat (destruct i as [| i]; [injection Hlook as <- |]);
  [ .. | discriminate Hlook ];
  cbn [List.length]; group_weight;
  rewrite land_127, land_128;
  (split; [divmod | split; [divmod |]]);
  match goal with
  | |- context [(?a <? ?b)%nat] =>
      let c := eval vm_compute in (a <? b)%nat in
      change (a <? b)%nat with c
  end; cbv iota; divmod.

(** C4: for every value below [2 ^ 28], [track::add_varinum] appends one
    to four bytes; each byte carries seven data bits, the groups of the
    value most significant first; bit 7 is set on every byte but the last;
    the leading group is not zero unless the encoding is a single byte;
    the standard decoder reads the value back; and no byte string that the
    decoder reads as the same value is shorter. *)
Theorem add_varinum_roundtrip (v : Z) :
  0 <= v < 2 ^ 28 ->
  let enc := varinum_bytes v in
  let n := List.length enc in
  writes (add_varinum v) tt enc /\
  (1 <= n <= 4)%nat /\
  (forall (i : nat) (b : Z), enc !! i = Some b ->
     0 <= b < 256 /\
     Z.land b 0x7F = (v / 2 ^ (7 * Z.of_nat (n - 1 - i))) mod 2 ^ 7 /\
     Z.land b 0x80 = if (i <? n - 1)%nat then 0x80 else 0) /\
  (n = 1%nat \/ exists b, enc !! 0%nat = Some b /\ Z.land b 0x7F <> 0) /\
  (forall rest, decode_varint (enc ++ rest) = Some (v, rest)) /\
  (forall bs, decode_varint bs = Some (v, []) -> (n <= List.length bs)%nat).
Proof.
  intros Hv enc n.
  assert (Hw : writes (add_varinum v) tt enc).
  { apply add_varinum_writes. pose proof ulong_range_32.
    pow2_numerals. lia. }
  split; [exact Hw |]. subst n enc. clear Hw.
  pow2_numerals.
  destruct (Z.ltb_spec v 128) as [H1 | H1];
    [| destruct (Z.ltb_spec v 16384) as [H2 | H2];
       [| destruct (Z.ltb_spec v 2097152) as [H3 | H3]]].
  - rewrite varinum_bytes_1 by (pow2_numerals; lia).
    split; [cbn; lia |]. split; [byte_facts |].
    split; [left; reflexivity |].
    split.
    { intros rest. unfold decode_varint. cbn [app].
      rewrite decode_last by lia. f_equal. }
    intros [| b bs] Hdec; [discriminate Hdec | cbn; lia].
  - rewrite varinum_bytes_2 by (pow2_numerals; lia).
    pow2_numerals.
    split; [cbn; lia |]. split; [byte_facts |].
    split.
    { right. eexists. split; [reflexivity |]. rewrite land_127. divmod. }
    split.
    { intros rest. unfold decode_varint. cbn [app].
      rewrite decode_more by (try divmod; lia).
      rewrite decode_last by divmod. do 2 f_equal. divmod. }
    intros bs Hdec. apply (decode_needs_length v bs 1) in Hdec; cbn; lia.
  - rewrite varinum_bytes_3 by (pow2_numerals; lia).
    pow2_numerals.
    split; [cbn; lia |]. split; [byte_facts |].
    split.
    { right. eexists. split; [reflexivity |]. rewrite land_127. divmod. }
    split.
    { intros rest. unfold decode_varint. cbn [app].
      rewrite !decode_more by (try divmod; lia).
      rewrite decode_last by divmod. do 2 f_equal. divmod. }
    intros bs Hdec. apply (decode_needs_length v bs 2) in Hdec; cbn; lia.
  - rewrite varinum_bytes_4 by (pow2_numerals; lia).
    pow2_numerals.
    split; [cbn; lia |]. split; [byte_facts |].
    split.
    { right. eexists. split; [reflexivity |]. rewrite land_127. divmod. }
    split.
    { intros rest. unfold decode_varint. cbn [app].
      rewrite !decode_more by (try divmod; lia).
      rewrite decode_last by divmod. do 2 f_equal. divmod. }
    intros bs Hdec. apply (decode_needs_length v bs 3) in Hdec; cbn; lia.
Qed.

End VarinumClaim.

(** ** The writers of the exporter run to completion *)

Ltac writes_step :=
  first
    [ apply writes_ret
    | apply writes_put
    | apply writes_put_bytes
    | apply add_varinum_to_ulong
    | eapply writes_bind ].

Section WriterFacts.

Context {event : Type} `{Platform} `{EventApi event}.

Implicit Type s : sequence.t event.
Implicit Type e : event.

Lemma writes_add_long (x : Z) : writes (add_long x) tt (long_bytes x).
Proof. unfold add_long. repeat apply writes_put_then. apply writes_put. Qed.

Lemma writes_add_short (x : Z) : writes (add_short x) tt (short_bytes x).
Proof. unfold add_short. repeat apply writes_put_then. apply writes_put. Qed.

Lemma writes_put_meta (metavalue datalen deltatime : Z) :
  writes (put_meta metavalue datalen deltatime) tt
    (varinum_bytes (to_ulong deltatime)
     ++ [to_byte EVENT_MIDI_META; to_byte metavalue]
     ++ varinum_bytes (to_ulong datalen)).
Proof.
  unfold put_meta. eapply writes_out; [repeat writes_step |].
  reflexivity.
Qed.

Lemma writes_put_seqspec (spec datalen : Z) :
  writes (put_seqspec spec datalen) tt (output (put_seqspec spec datalen)).
Proof.
  unfold put_seqspec. eapply writes_self.
  eapply writes_bind; [apply writes_put_meta | apply writes_add_long].
Qed.

Lemma writes_add_ex_event e (deltatime : Z) :
  writes (add_ex_event e deltatime) tt
    (varinum_bytes (to_ulong deltatime)
     ++ [to_byte (get_status e)]
     ++ (if is_meta e then [to_byte (channel e)] else [])
     ++ varinum_bytes (to_ulong (Z.of_nat (List.length (get_message e))))
     ++ map to_byte (get_message e)).
Proof.
  unfold add_ex_event.
  eapply writes_bind; [apply add_varinum_to_ulong |].
  eapply writes_bind; [apply writes_put |].
  eapply writes_bind; [| repeat writes_step].
  destruct (is_meta e); [apply writes_put | apply writes_ret].
Qed.

Lemma writes_data e :
  writes
    (if has_channel e then
       let m := mask_status (get_status e) in
       if (m =? EVENT_NOTE_OFF) || (m =? EVENT_NOTE_ON)
          || (m =? EVENT_AFTERTOUCH) || (m =? EVENT_CONTROL_CHANGE)
          || (m =? EVENT_PITCH_WHEEL)
       then put (data 0 e) ;; put (data 1 e)
       else if (m =? EVENT_PROGRAM_CHANGE) || (m =? EVENT_CHANNEL_PRESSURE)
       then put (data 0 e)
       else ret tt
     else ret tt) tt (data_bytes e).
Proof.
  unfold data_bytes. cbv zeta.
  destruct (has_channel e); [| apply writes_ret].
  destruct (_ || _ || _ || _ || _).
  - apply writes_put_then, writes_put.
  - destruct (_ || _); [apply writes_put | apply writes_ret].
Qed.

Lemma writes_add_event_voice s e (deltatime : Z) :
  is_ex_data e = false ->
  writes (add_event s e deltatime) tt
    (varinum_bytes (to_ulong deltatime)
     ++ [to_byte
           (if sequence.m_free_channel s
               || is_null_channel (sequence.m_midi_channel s)
            then Z.lor (get_status e) (channel e)
            else Z.lor (get_status e) (sequence.m_midi_channel s))]
     ++ data_bytes e).
Proof.
  intros Hex. unfold add_event. rewrite Hex. cbv zeta.
  unfold sequence.free_channel, sequence.seq_midi_channel.
  eapply writes_bind; [apply add_varinum_to_ulong |].
  eapply writes_bind; [| apply writes_data].
  destruct (_ || _); apply writes_put.
Qed.

Lemma writes_add_event s e (deltatime : Z) :
  writes (add_event s e deltatime) tt (output (add_event s e deltatime)).
Proof.
  destruct (is_ex_data e) eqn:Hex.
  - unfold add_event. rewrite Hex.
    eapply writes_self. apply writes_add_ex_event.
  - eapply writes_self. apply writes_add_event_voice. exact Hex.
Qed.

Lemma writes_fill_seq_number (seq : Z) :
  writes (fill_seq_number seq) tt (output (fill_seq_number seq)).
Proof.
  unfold fill_seq_number. eapply writes_self.
  eapply writes_bind; [apply writes_put_meta | apply writes_add_short].
Qed.

Lemma writes_fill_seq_name (name : String.string) :
  writes (fill_seq_name name) tt (output (fill_seq_name name)).
Proof.
  unfold fill_seq_name. eapply writes_self.
  eapply writes_bind; [apply writes_put_meta | apply writes_put_bytes].
Qed.

Lemma writes_fill_meta_track_end (deltatime : Z) :
  writes (fill_meta_track_end deltatime) tt
    (varinum_bytes (to_ulong deltatime)
     ++ [to_byte EVENT_MIDI_META; to_byte EVENT_META_END_OF_TRACK]
     ++ varinum_bytes (to_ulong 0)).
Proof. apply writes_put_meta. Qed.

End WriterFacts.

(** ** Channel resolution when an event is written *)

Section EventClaims.

Context {event : Type} `{Platform} `{EventApi event}.

Implicit Type s : sequence.t event.
Implicit Type e : event.

(** C7: [track::add_event] hands a meta or SysEx event to
    [track::add_ex_event], which writes its status byte as it is; for any
    other event the status byte is or-ed with the channel of the event when
    the pattern is a free-channel pattern or its channel is the null
    channel, and with the channel of the pattern otherwise. *)
Theorem add_event_channel_policy s e (deltatime : Z) :
  (is_ex_data e = true -> add_event s e deltatime = add_ex_event e deltatime)
  /\ writes (add_event s e deltatime) tt
       (if is_ex_data e then
          varinum_bytes (to_ulong deltatime)
          ++ [to_byte (get_status e)]
          ++ (if is_meta e then [to_byte (channel e)] else [])
          ++ varinum_bytes (to_ulong (Z.of_nat (List.length (get_message e))))
          ++ map to_byte (get_message e)
        else
          varinum_bytes (to_ulong deltatime)
          ++ [to_byte
                (if sequence.m_free_channel s
                    || is_null_channel (sequence.m_midi_channel s)
                 then Z.lor (get_status e) (channel e)
                 else Z.lor (get_status e) (sequence.m_midi_channel s))]
          ++ data_bytes e).
Proof.
  split.
  - intros Hex. unfold add_event. rewrite Hex. reflexivity.
  - destruct (is_ex_data e) eqn:Hex.
    + unfold add_event. rewrite Hex. apply writes_add_ex_event.
    + apply writes_add_event_voice. exact Hex.
Qed.

End EventClaims.

(** ** The SeqSpec section of a track *)

Section ProprietaryClaims.

Context {event : Type} `{Platform} `{EventApi event}.

Implicit Type s : sequence.t event.

Lemma writes_block_1 {A} (spec b : Z) (rest : M A) a out :
  writes rest a out ->
  writes (put_seqspec spec 1 ;; put b ;; rest) a
    (seqspec_block spec [to_byte b] ++ out).
Proof.
  intros Hrest. unfold seqspec_block. rewrite <- app_assoc.
  eapply writes_bind; [apply writes_put_seqspec |].
  apply writes_put_then. exact Hrest.
Qed.

Lemma writes_block_2 {A} (spec b c : Z) (rest : M A) a out :
  writes rest a out ->
  writes (put_seqspec spec 2 ;; put b ;; put c ;; rest) a
    (seqspec_block spec [to_byte b; to_byte c] ++ out).
Proof.
  intros Hrest. unfold seqspec_block. rewrite <- app_assoc.
  eapply writes_bind; [apply writes_put_seqspec |].
  do 2 apply writes_put_then. exact Hrest.
Qed.

Lemma writes_block_last (spec b : Z) :
  writes (put_seqspec spec 1 ;; put b) tt (seqspec_block spec [to_byte b]).
Proof.
  unfold seqspec_block.
  eapply writes_bind; [apply writes_put_seqspec | apply writes_put].
Qed.

Lemma writes_block_long (spec x : Z) :
  writes (put_seqspec spec 4 ;; add_long x) tt
    (seqspec_block spec (long_bytes x)).
Proof.
  unfold seqspec_block.
  eapply writes_bind; [apply writes_put_seqspec | apply writes_add_long].
Qed.

Lemma writes_block_short (spec x : Z) :
  writes (put_seqspec spec 2 ;; add_short x) tt
    (seqspec_block spec (short_bytes x)).
Proof.
  unfold seqspec_block.
  eapply writes_bind; [apply writes_put_seqspec | apply writes_add_short].
Qed.

Lemma writes_unless (c : bool) (m : M unit) out :
  writes m tt out ->
  writes (if negb c then m else ret tt) tt (if c then [] else out).
Proof. intros Hm. destruct c; [apply writes_ret | exact Hm]. Qed.

Lemma writes_when (c : bool) (m : M unit) out :
  writes m tt out ->
  writes (if c then m else ret tt) tt (if c then out else []).
Proof. intros Hm. destruct c; [exact Hm | apply writes_ret]. Qed.

Lemma writes_fill_proprietary_blocks (cfg : settings) s :
  writes (fill_proprietary cfg s) tt
    (seqspec_block c_midibus [to_byte (sequence.m_nominal_bus s)]
     ++ seqspec_block c_timesig
          [to_byte (sequence.m_time_beats_per_measure s);
           to_byte (sequence.m_time_beat_width s)]
     ++ seqspec_block c_midichannel [to_byte (sequence.m_midi_channel s)]
     ++ (if global_seq_feature cfg then []
         else
           (if sequence.m_musical_key s =? c_key_of_C then []
            else seqspec_block c_musickey
                   [to_byte (sequence.m_musical_key s)])
           ++ (if sequence.m_musical_scale s =? c_scales_off then []
               else seqspec_block c_musicscale
                      [to_byte (sequence.m_musical_scale s)])
           ++ (if seq_valid (sequence.m_background_sequence s)
               then seqspec_block c_backsequence
                      (long_bytes (to_ulong (sequence.m_background_sequence s)))
               else []))
     ++ seqspec_block c_transpose
          [to_byte (byte_of_bool (sequence.m_transposable s))]
     ++ (if sequence.m_seq_color s =? c_seq_color_none then []
         else seqspec_block c_seq_color [to_byte (sequence.m_seq_color s)])
     ++ (if sequence.m_loop_count_max s >? 0
         then seqspec_block c_seq_loopcount
                (short_bytes (to_ushort (sequence.m_loop_count_max s)))
         else [])).
Proof.
  unfold fill_proprietary.
  unfold sequence.seq_midi_bus, sequence.get_beats_per_bar,
    sequence.get_beat_width, sequence.seq_midi_channel, sequence.musical_key,
    sequence.musical_scale, sequence.background_sequence,
    sequence.transposable, sequence.color, sequence.loop_count_max.
  cbv zeta.
  apply writes_block_1, writes_block_2, writes_block_1.
  eapply writes_bind.
  { apply writes_unless.
    eapply writes_bind; [apply writes_unless, writes_block_last |].
    eapply writes_bind; [apply writes_unless, writes_block_last |].
    apply writes_when, writes_block_long. }
  apply writes_block_1.
  eapply writes_bind; [apply writes_unless, writes_block_last |].
  apply writes_when, writes_block_short.
Qed.

(** C9, as amended: [track::fill_proprietary] always writes the buss, the
    time-signature, the channel and the transposable blocks; it writes the
    key, scale and background-sequence blocks only when the global
    sequence feature is off and the value is not the default (key of C,
    scale off, no valid background sequence); the color block only when
    the color is not [c_seq_color_none]; and the loop-count block only when
    the loop count is positive. *)
Theorem proprietary_blocks_emitted (cfg : settings) s :
  writes (fill_proprietary cfg s) tt
    (seqspec_block c_midibus [to_byte (sequence.m_nominal_bus s)]
     ++ seqspec_block c_timesig
          [to_byte (sequence.m_time_beats_per_measure s);
           to_byte (sequence.m_time_beat_width s)]
     ++ seqspec_block c_midichannel [to_byte (sequence.m_midi_channel s)]
     ++ (if global_seq_feature cfg then []
         else
           (if sequence.m_musical_key s =? c_key_of_C then []
            else seqspec_block c_musickey
                   [to_byte (sequence.m_musical_key s)])
           ++ (if sequence.m_musical_scale s =? c_scales_off then []
               else seqspec_block c_musicscale
                      [to_byte (sequence.m_musical_scale s)])
           ++ (if seq_valid (sequence.m_background_sequence s)
               then seqspec_block c_backsequence
                      (long_bytes (to_ulong (sequence.m_background_sequence s)))
               else []))
     ++ seqspec_block c_transpose
          [to_byte (byte_of_bool (sequence.m_transposable s))]
     ++ (if sequence.m_seq_color s =? c_seq_color_none then []
         else seqspec_block c_seq_color [to_byte (sequence.m_seq_color s)])
     ++ (if sequence.m_loop_count_max s >? 0
         then seqspec_block c_seq_loopcount
                (short_bytes (to_ushort (sequence.m_loop_count_max s)))
         else [])).
Proof. apply writes_fill_proprietary_blocks. Qed.

End ProprietaryClaims.

(** ** Song export of a pattern that cannot be exported *)

Lemma bind_ok_inv {A B} (m : M A) (k : A -> M B) b bytes bytes' :
  bind m k bytes = Ok (b, bytes') ->
  exists a mid, m bytes = Ok (a, mid) /\ k a mid = Ok (b, bytes').
Proof.
  unfold bind. destruct (m bytes) as [[a mid] | f]; [| discriminate].
  intros Hk. exists a, mid. auto.
Qed.

Section SongTrackClaims.

Context {event : Type} `{Platform} `{EventApi event}.

Implicit Type s : sequence.t event.

Lemma is_exportable_false s :
  sequence.is_exportable s = false <->
  sequence.m_song_mute s = true \/ sequence.m_triggers s = [].
Proof.
  unfold sequence.is_exportable, sequence.get_song_mute,
    sequence.trigger_count.
  destruct (sequence.m_song_mute s), (sequence.m_triggers s) as [| t l];
    cbn; split; intros Hx; auto; try discriminate.
  destruct Hx as [Hx | Hx]; discriminate.
Qed.

Lemma song_fill_track_true (cfg : settings) s track standalone bytes r bytes' :
  sequence.is_exportable s = true ->
  song_fill_track cfg s track standalone bytes = Ok (r, bytes') -> r = true.
Proof.
  intros Hexp. unfold song_fill_track. rewrite Hexp.
  intros Hrun.
  apply bind_ok_inv in Hrun as (? & ? & _ & Hrun).
  apply bind_ok_inv in Hrun as (? & ? & _ & Hrun).
  apply bind_ok_inv in Hrun as (? & ? & _ & Hrun).
  destruct (last _); [| discriminate].
  apply bind_ok_inv in Hrun as (? & ? & _ & Hrun).
  inversion Hrun. reflexivity.
Qed.

(** C6: for a pattern that is song-muted or has no trigger,
    [track::song_fill_track] returns false and leaves the container as it
    was; and a return value of false always means exactly that: a run that
    returns false at all was given such a pattern and wrote nothing. *)
Theorem song_fill_track_not_exportable (cfg : settings) s (track : Z)
    (standalone : bool) (bytes : list Z) :
  (sequence.m_song_mute s = true \/ sequence.m_triggers s = [] ->
   song_fill_track cfg s track standalone bytes = Ok (false, bytes))
  /\ (forall bytes',
        song_fill_track cfg s track standalone bytes = Ok (false, bytes') ->
        (sequence.m_song_mute s = true \/ sequence.m_triggers s = [])
        /\ bytes' = bytes).
Proof.
  split.
  - intros Hne. apply is_exportable_false in Hne.
    unfold song_fill_track. rewrite Hne. reflexivity.
  - intros bytes' Hrun.
    destruct (sequence.is_exportable s) eqn:Hexp.
    + apply (song_fill_track_true _ _ _ _ _ _ _ Hexp) in Hrun. discriminate.
    + split; [apply is_exportable_false; exact Hexp |].
      unfold song_fill_track in Hrun. rewrite Hexp in Hrun.
      inversion Hrun. reflexivity.
Qed.

End SongTrackClaims.

(** ** The end tick of a song export *)

Lemma snapped_end_spec (seqend measticks : Z) :
  0 < measticks ->
  let snapped := snapped_end seqend measticks in
  snapped mod measticks = measticks - 1
  /\ seqend <= snapped
  /\ (Z.rem seqend measticks = measticks - 1 -> snapped = seqend)
  /\ (0 <= seqend ->
      Z.rem snapped measticks = measticks - 1 /\ snapped - seqend < measticks).
Proof.
  intros Hm snapped. subst snapped. unfold snapped_end.
  destruct (Z.gtb_spec measticks 0) as [_ | Hle]; [| lia].
  pose proof (Z.rem_bound_abs seqend measticks ltac:(lia)) as Habs.
  pose proof (Z.quot_rem' seqend measticks) as Hqr.
  set (r := Z.rem seqend measticks) in *.
  set (q := Z.quot seqend measticks) in *.
  assert (Hsnap : seqend + (measticks - r - 1) = measticks * q + (measticks - 1))
    by lia.
  assert (Hr : 0 <= seqend -> 0 <= r)
    by (intros Hpos; apply Z.rem_nonneg; lia).
  destruct (Z.eqb_spec r (measticks - 1)) as [Heq | Hne]; cbn [negb].
  - assert (Hmod : seqend mod measticks = measticks - 1).
    { symmetry. apply (Z.mod_unique seqend measticks q); lia. }
    split; [exact Hmod |]. split; [lia |]. split; [reflexivity |].
    intros Hpos. split; [| lia].
    rewrite Z.rem_mod_nonneg by lia. exact Hmod.
  - assert (Hmod : (seqend + (measticks - r - 1)) mod measticks = measticks - 1).
    { symmetry. apply (Z.mod_unique _ measticks q); lia. }
    split; [exact Hmod |]. split; [lia |]. split; [intros Hsame; lia |].
    intros Hpos. specialize (Hr Hpos). split; [| lia].
    rewrite Z.rem_mod_nonneg by lia. exact Hmod.
Qed.

Section SongEndClaims.

Context {event : Type} `{Platform} `{EventApi event}.

Implicit Type s : sequence.t event.

Lemma writes_fill_proprietary (cfg : settings) s :
  writes (fill_proprietary cfg s) tt (output (fill_proprietary cfg s)).
Proof. eapply writes_self. apply writes_fill_proprietary_blocks. Qed.

Lemma writes_song_fill_seq_trigger (cfg : settings) s trig (length prev : Z) :
  writes (song_fill_seq_trigger cfg s trig length prev) tt
    (output (put_seqspec c_triggers_ex (trigger_datasize c_triggers_ex))
     ++ long_bytes (to_ulong 0)
     ++ long_bytes (to_ulong (trigger.tick_end trig))
     ++ long_bytes (to_ulong 0)
     ++ output (fill_proprietary cfg s)
     ++ varinum_bytes (to_ulong (length - prev))
     ++ [to_byte EVENT_MIDI_META; to_byte EVENT_META_END_OF_TRACK]
     ++ varinum_bytes (to_ulong 0)).
Proof.
  unfold song_fill_seq_trigger.
  eapply writes_bind; [apply writes_put_seqspec |].
  eapply writes_bind; [apply writes_add_long |].
  eapply writes_bind; [apply writes_add_long |].
  eapply writes_bind; [apply writes_add_long |].
  eapply writes_bind; [apply writes_fill_proprietary |].
  apply writes_fill_meta_track_end.
Qed.

(** When a measure has a positive number of ticks, the end of the last
    trigger is rounded up to the last tick of its measure (its remainder
    modulo the ticks of a measure is that number minus one; an end that is
    already there stays), never to an earlier tick; the rounded end is the
    track length from which the delta time of the end-of-track event is
    taken, while the flattened trigger block records the end of the last
    trigger as it is. *)
Lemma song_fill_track_end (cfg : settings) s (track : Z)
    (standalone : bool) (ender : trigger.t) :
  sequence.is_exportable s = true ->
  last (sequence.m_triggers s) = Some ender ->
  0 < sequence.measures_to_ticks s 1 ->
  let measticks := sequence.measures_to_ticks s 1 in
  let seqend := snapped_end (trigger.tick_end ender) measticks in
  seqend mod measticks = measticks - 1
  /\ trigger.tick_end ender <= seqend
  /\ (Z.rem (trigger.tick_end ender) measticks = measticks - 1 ->
      seqend = trigger.tick_end ender)
  /\ (0 <= trigger.tick_end ender ->
      Z.rem seqend measticks = measticks - 1
      /\ seqend - trigger.tick_end ender < measticks)
  /\ forall bytes last_ts replayed,
       (clear ;;
        (if standalone then
           fill_seq_number track ;; fill_seq_name (sequence.m_name s)
         else ret tt) ;;
        song_fill_triggers s (sequence.m_triggers s) 0) bytes
       = Ok (last_ts, replayed) ->
       song_fill_track cfg s track standalone bytes
       = Ok (true,
             replayed
             ++ output (put_seqspec c_triggers_ex
                          (trigger_datasize c_triggers_ex))
             ++ long_bytes (to_ulong 0)
             ++ long_bytes (to_ulong (trigger.tick_end ender))
             ++ long_bytes (to_ulong 0)
             ++ output (fill_proprietary cfg s)
             ++ varinum_bytes (to_ulong (seqend - last_ts))
             ++ [to_byte EVENT_MIDI_META; to_byte EVENT_META_END_OF_TRACK]
             ++ varinum_bytes (to_ulong 0)).
Proof.
  intros Hexp Hlast Hpos measticks seqend.
  destruct (snapped_end_spec (trigger.tick_end ender) measticks Hpos)
    as (Hmod & Hle & Hsame & Hrem).
  repeat (split; [assumption |]).
  intros bytes last_ts replayed Hrun.
  unfold song_fill_track. rewrite Hexp.
  unfold sequence.get_triggers, sequence.name.
  apply bind_ok_inv in Hrun as ([] & b1 & Hclear & Hrun).
  apply bind_ok_inv in Hrun as ([] & b2 & Hhead & Hrun).
  rewrite (bind_ok _ _ _ _ _ Hclear).
  rewrite (bind_ok _ _ _ _ _ Hhead).
  rewrite (bind_ok _ _ _ _ _ Hrun).
  rewrite Hlast. fold measticks. fold seqend.
  unfold bind.
  rewrite (writes_song_fill_seq_trigger cfg s ender seqend last_ts replayed).
  reflexivity.
Qed.

End SongEndClaims.

(** ** Replaying a pattern through a trigger *)

Lemma int_of_pulse_small (x : Z) :
  - 2 ^ 31 <= x < 2 ^ 31 -> int_of_pulse x = x.
Proof.
  intros Hx. unfold int_of_pulse.
  rewrite Z.mod_small by lia. lia.
Qed.

Section ReplayClaims.

Context {event : Type} `{Platform} `{EventApi event}.

Implicit Type s : sequence.t event.
Implicit Type e : event.
Implicit Type trig : trigger.t.

Lemma replay_passes_offsets s trig (passes : nat) :
  forall (time_offset : Z) (st : Z * list Z) (bytes : list Z),
    replay_passes s trig passes time_offset st bytes
    = replay_at_offsets s trig
        (map (fun p => time_offset + Z.of_nat p * sequence.get_length s)
           (seq 0 passes))
        st bytes.
Proof.
  induction passes as [| passes IH]; intros time_offset st bytes.
  - reflexivity.
  - cbn [replay_passes seq map replay_at_offsets].
    replace (time_offset + Z.of_nat 0 * sequence.get_length s)
      with time_offset by lia.
    unfold bind.
    destruct (replay_pass s trig time_offset (sequence.events s) st bytes)
      as [[st' bytes'] | f]; [| reflexivity].
    rewrite IH. f_equal.
    rewrite <- seq_shift, map_map.
    apply map_ext. intros p. lia.
Qed.

(** C1: with a positive pattern length [len], the replay of a trigger
    starts at the time offset
    [tick_start + offset % len - tick_start % len], less [len] exactly
    when [offset % len > tick_start % len], and makes the passes
    [p = 0 .. times_played], pass [p] at that offset plus [p * len], where
    [times_played] is [1 + (length - 1) / len] as an [int].  For a pattern
    of 192 ticks and the trigger from 100 to 300 with offset 50 the first
    time offset is 50, with no backward adjustment. *)
Theorem song_fill_seq_event_passes s trig (prev_timestamp : Z) :
  (0 < sequence.m_length s ->
   let len := sequence.m_length s in
   let trig_offset := Z.rem (trigger.offset trig) len in
   let start_offset := Z.rem (trigger.tick_start trig) len in
   let time_offset :=
     trigger.tick_start trig + trig_offset - start_offset
     - (if trig_offset >? start_offset then len else 0) in
   let times_played :=
     int_of_pulse (1 + Z.quot (trigger.length trig - 1) len) in
   (- 2 ^ 31 <= 1 + Z.quot (trigger.length trig - 1) len < 2 ^ 31 ->
    times_played = 1 + Z.quot (trigger.length trig - 1) len)
   /\ (0 <= trigger.offset trig -> 0 <= trigger.tick_start trig ->
       trig_offset = trigger.offset trig mod len
       /\ start_offset = trigger.tick_start trig mod len)
   /\ forall bytes,
        song_fill_seq_event s trig prev_timestamp bytes
        = (st <- replay_at_offsets s trig
                   (map (fun p => time_offset + Z.of_nat p * len)
                      (seq 0 (Z.to_nat (times_played + 1))))
                   (prev_timestamp, replicate c_notes_count 0) ;;
           ret (fst st)) bytes)
  /\ (sequence.m_length s = 192 ->
      trigger.tick_start trig = 100 ->
      trigger.tick_end trig = 300 ->
      trigger.offset trig = 50 ->
      (Z.rem 50 192 >? Z.rem 100 192) = false
      /\ forall bytes,
           song_fill_seq_event s trig prev_timestamp bytes
           = (st <- replay_at_offsets s trig [50; 242; 434]
                      (prev_timestamp, replicate c_notes_count 0) ;;
              ret (fst st)) bytes).
Proof.
  assert (Hgen : forall bytes,
    sequence.m_length s <> 0 ->
    song_fill_seq_event s trig prev_timestamp bytes
    = (st <- replay_at_offsets s trig
               (map (fun p =>
                       trigger.tick_start trig
                       + Z.rem (trigger.offset trig) (sequence.m_length s)
                       - Z.rem (trigger.tick_start trig) (sequence.m_length s)
                       - (if Z.rem (trigger.offset trig) (sequence.m_length s)
                             >? Z.rem (trigger.tick_start trig)
                                  (sequence.m_length s)
                          then sequence.m_length s else 0)
                       + Z.of_nat p * sequence.m_length s)
                  (seq 0
                     (Z.to_nat
                        (int_of_pulse
                           (1 + Z.quot (trigger.length trig - 1)
                                  (sequence.m_length s)) + 1))))
               (prev_timestamp, replicate c_notes_count 0) ;;
       ret (fst st)) bytes).
  { intros bytes Hlen.
    unfold song_fill_seq_event, pulse_rem, pulse_quot, sequence.get_length.
    destruct (Z.eqb_spec (sequence.m_length s) 0) as [Hz | _];
      [contradiction |].
    unfold bind at 1 2 3. unfold ret at 1 2 3.
    unfold bind. rewrite replay_passes_offsets.
    unfold sequence.get_length.
    destruct (Z.rem (trigger.offset trig) (sequence.m_length s)
              >? Z.rem (trigger.tick_start trig) (sequence.m_length s));
      rewrite ?Z.sub_0_r; reflexivity. }
  split.
  - intros Hlen len trig_offset start_offset time_offset times_played.
    split; [apply int_of_pulse_small |].
    split.
    + intros Hoff Hstart. subst trig_offset start_offset.
      rewrite !Z.rem_mod_nonneg by lia. split; reflexivity.
    + intros bytes. apply Hgen. lia.
  - intros Hlen Hstart Hend Hoff. split; [reflexivity |].
    intros bytes. rewrite Hgen by lia.
    unfold trigger.length. rewrite Hlen, Hstart, Hend, Hoff. reflexivity.
Qed.

(** C3, as amended: what one replay pass does with an event [e] whose
    shifted time-stamp is [ts], for a note table [used] and the copy [e']
    of the event, which is transposed when the trigger is and the event is
    of the note class ([event::is_note]: note on, note off and
    aftertouch).  An event before the start of the trigger is skipped; a
    note on after the end of the trigger is skipped; a note on up to the
    end is counted and written; a note off for a note whose count is not
    positive is skipped; a note off for a counted note is written no later
    than the end of the trigger and uncounted; an event of the note class
    that is neither note on nor note off is written at its own time-stamp,
    before the end of the trigger and after it, and leaves the table as it
    is; an event that is not of the note class is skipped at or after the
    end of the trigger and written unchanged before it.  The last test of
    the loop body looks at the copy: a written copy lies before the end of
    the trigger or is of the note class. *)
Theorem replay_pass_event s trig (time_offset : Z) e (rest : list event)
    (prev_timestamp : Z) (used : list Z) :
  let ts := timestamp e + time_offset in
  let e' :=
    if trigger.transposed trig
    then transpose_note (trigger.transpose trig) e else e in
  let note := Z.to_nat (get_note e) in
  let this := replay_pass s trig time_offset (e :: rest) (prev_timestamp, used) in
  let next := replay_pass s trig time_offset rest in
  (ts < trigger.tick_start trig -> this = next (prev_timestamp, used))
  /\ (trigger.tick_start trig <= ts -> is_note e = true ->
      is_note_on e' = true -> trigger.tick_end trig < ts ->
      this = next (prev_timestamp, used))
  /\ (trigger.tick_start trig <= ts -> is_note e = true ->
      is_note_on e' = true -> ts <= trigger.tick_end trig ->
      ts < trigger.tick_end trig \/ is_note e' = true ->
      forall count, used !! note = Some count ->
        this = (add_event s e' (ts - prev_timestamp) ;;
                next (ts, <[note := count + 1]> used)))
  /\ (trigger.tick_start trig <= ts -> is_note e = true ->
      is_note_on e' = false -> is_note_off e' = true ->
      forall count, used !! note = Some count -> count <= 0 ->
        this = next (prev_timestamp, used))
  /\ (trigger.tick_start trig <= ts -> is_note e = true ->
      is_note_on e' = false -> is_note_off e' = true ->
      ts < trigger.tick_end trig \/ is_note e' = true ->
      forall count, used !! note = Some count -> 0 < count ->
        this = (add_event s e'
                  (Z.min ts (trigger.tick_end trig) - prev_timestamp) ;;
                next (Z.min ts (trigger.tick_end trig),
                      <[note := count - 1]> used)))
  /\ (trigger.tick_start trig <= ts -> is_note e = true ->
      is_note_on e' = false -> is_note_off e' = false ->
      ts < trigger.tick_end trig \/ is_note e' = true ->
      this = (add_event s e' (ts - prev_timestamp) ;; next (ts, used)))
  /\ (trigger.tick_start trig <= ts -> is_note e = false ->
      trigger.tick_end trig <= ts ->
      this = next (prev_timestamp, used))
  /\ (trigger.tick_start trig <= ts -> is_note e = false ->
      ts < trigger.tick_end trig ->
      this = (add_event s e (ts - prev_timestamp) ;; next (ts, used))).
Proof.
  intros ts e' note this next. subst this next.
  cbn [replay_pass]. unfold replay_event, transposed_copy, drop_past_end.
  fold ts. fold e'. fold note.
  assert (Hkeep : forall t : Z,
             t < trigger.tick_end trig \/ is_note e' = true ->
             (t >=? trigger.tick_end trig) && negb (is_note e') = false).
  { intros t [Hlt | Hn].
    - destruct (Z.geb_spec t (trigger.tick_end trig)); [lia | reflexivity].
    - rewrite Hn. apply andb_false_r. }
  repeat split.
  - intros Hts. destruct (Z.geb_spec ts (trigger.tick_start trig)); [lia |].
    reflexivity.
  - intros Hts Hnote Hon Hend.
    destruct (Z.geb_spec ts (trigger.tick_start trig)); [| lia].
    rewrite Hnote, Hon.
    destruct (Z.leb_spec ts (trigger.tick_end trig)); [lia | reflexivity].
  - intros Hts Hnote Hon Hend Hwritten count Hcount.
    destruct (Z.geb_spec ts (trigger.tick_start trig)); [| lia].
    rewrite Hnote, Hon.
    destruct (Z.leb_spec ts (trigger.tick_end trig)); [| lia].
    rewrite Hcount, (Hkeep ts Hwritten). reflexivity.
  - intros Hts Hnote Hon Hoff count Hcount Hle.
    destruct (Z.geb_spec ts (trigger.tick_start trig)); [| lia].
    rewrite Hnote, Hon, Hoff, Hcount.
    destruct (Z.gtb_spec count 0); [lia | reflexivity].
  - intros Hts Hnote Hon Hoff Hwritten count Hcount Hpos.
    destruct (Z.geb_spec ts (trigger.tick_start trig)); [| lia].
    rewrite Hnote, Hon, Hoff, Hcount.
    destruct (Z.gtb_spec count 0); [| lia].
    destruct (Z.gtb_spec ts (trigger.tick_end trig)).
    + rewrite Z.min_r by lia.
      destruct Hwritten as [Hlt | Hn]; [lia |].
      rewrite Hn, andb_false_r. reflexivity.
    + rewrite Z.min_l by lia. rewrite (Hkeep ts Hwritten). reflexivity.
  - intros Hts Hnote Hon Hoff Hwritten.
    destruct (Z.geb_spec ts (trigger.tick_start trig)); [| lia].
    rewrite Hnote, Hon, Hoff, (Hkeep ts Hwritten). reflexivity.
  - intros Hts Hnote Hend.
    destruct (Z.geb_spec ts (trigger.tick_start trig)); [| lia].
    rewrite Hnote.
    destruct (Z.geb_spec ts (trigger.tick_end trig)); [| lia].
    reflexivity.
  - intros Hts Hnote Hend.
    destruct (Z.geb_spec ts (trigger.tick_start trig)); [| lia].
    rewrite Hnote.
    destruct (Z.geb_spec ts (trigger.tick_end trig)); [lia |].
    reflexivity.
Qed.

End ReplayClaims.

(** ** Regular export *)

Section FillClaims.

Context {event : Type} `{Platform} `{EventApi event}.

Implicit Type s : sequence.t event.
Implicit Type e : event.

Lemma writes_fill_events s (evl : list event) :
  forall prev,
    writes (fill_events s evl prev)
      (last_timestamp evl prev, bad_delta evl prev)
      (events_bytes s (exported_events evl prev)).
Proof.
  induction evl as [| e rest IH]; intros prev.
  - apply writes_ret.
  - cbn [fill_events last_timestamp bad_delta exported_events].
    destruct (timestamp e - prev <? 0).
    + apply writes_ret.
    + unfold events_bytes. cbn [map concat fst snd].
      eapply writes_bind; [apply writes_add_event | apply IH].
Qed.

Lemma writes_fill_triggers (transtriggers : bool) (triggerlist : list trigger.t) :
  writes (fill_triggers transtriggers triggerlist) tt
    (concat (map (trigger_bytes transtriggers) triggerlist)).
Proof.
  induction triggerlist as [| t rest IH].
  - apply writes_ret.
  - cbn [fill_triggers map concat]. unfold trigger_bytes at 1.
    rewrite <- !app_assoc.
    eapply writes_bind; [apply writes_add_long |].
    eapply writes_bind; [apply writes_add_long |].
    eapply writes_bind; [apply writes_add_long |].
    eapply writes_bind; [| exact IH].
    destruct transtriggers; [apply writes_put | apply writes_ret].
Qed.

Lemma use_transtriggers_spec (cfg : settings) s :
  use_transtriggers cfg s
  = negb (save_old_triggers cfg)
    && existsb (fun t => negb (trigger.transpose t =? 0)) (sequence.m_triggers s).
Proof.
  unfold use_transtriggers, sequence.any_trigger_transposed, any_transposed.
  destruct (save_old_triggers cfg); reflexivity.
Qed.

Lemma writes_fill_seqspec (cfg : settings) s :
  let transtriggers :=
    negb (save_old_triggers cfg)
    && existsb (fun t => negb (trigger.transpose t =? 0))
         (sequence.m_triggers s) in
  let tag := if transtriggers then c_trig_transpose else c_triggers_ex in
  writes (fill_seqspec cfg s) tt
    (output (put_seqspec tag (triggers_list_datasize (sequence.m_triggers s) tag))
     ++ concat (map (trigger_bytes transtriggers) (sequence.m_triggers s))
     ++ output (fill_proprietary cfg s)).
Proof.
  intros transtriggers tag. subst tag. unfold fill_seqspec.
  rewrite use_transtriggers_spec. fold transtriggers.
  unfold sequence.triggers_datasize, sequence.triggerlist.
  eapply writes_bind;
    [| eapply writes_bind;
       [apply writes_fill_triggers | apply writes_fill_proprietary]].
  destruct transtriggers; apply writes_put_seqspec.
Qed.

Lemma writes_fill (cfg : settings) s (track : Z) (doseqspec : bool) :
  let evl := sort (sequence.m_events s) in
  let last := last_timestamp evl 0 in
  writes (fill cfg s track doseqspec) (bad_delta evl 0)
    ((if doseqspec then output (fill_seq_number track) else [])
     ++ output (fill_seq_name (sequence.m_name s))
     ++ events_bytes s (exported_events evl 0)
     ++ (if doseqspec then output (fill_seqspec cfg s) else [])
     ++ output
          (fill_meta_track_end
             (if sequence.m_length s <? last then 0
              else sequence.m_length s - last))).
Proof.
  intros evl last. unfold fill.
  unfold sequence.events, sequence.name, sequence.get_length.
  fold evl.
  eapply writes_bind.
  { destruct doseqspec; [apply writes_fill_seq_number | apply writes_ret]. }
  eapply writes_bind; [apply writes_fill_seq_name |].
  eapply writes_bind; [apply writes_fill_events |].
  cbv beta iota. fold last.
  eapply writes_bind.
  { destruct doseqspec.
    - eapply writes_self. apply writes_fill_seqspec.
    - apply writes_ret. }
  eapply writes_out.
  - eapply writes_bind.
    + eapply writes_self. apply writes_fill_meta_track_end.
    + apply writes_ret.
  - apply app_nil_r.
Qed.

(** The events that [track::fill] writes are the events that come before
    the first negative delta time: they are a prefix of the list, and the
    event that follows them, if there is one, lies before the last written
    time-stamp. *)
Lemma exported_events_prefix (evl : list event) :
  forall prev,
    exists rest,
      evl = map fst (exported_events evl prev) ++ rest
      /\ (bad_delta evl prev = true <-> rest <> [])
      /\ (forall e rest', rest = e :: rest' ->
            timestamp e - last_timestamp evl prev < 0).
Proof.
  induction evl as [| e tail IH]; intros prev.
  - exists []. repeat split; try discriminate.
    + intros Hne. contradiction.
  - cbn [exported_events bad_delta last_timestamp].
    destruct (Z.ltb_spec (timestamp e - prev) 0) as [Hneg | Hpos].
    + exists (e :: tail). repeat split; try discriminate.
      intros e0 rest' [= <- <-]. exact Hneg.
    + destruct (IH (timestamp e)) as (rest & Heq & Hbad & Hnext).
      exists rest. cbn [map fst app]. repeat split.
      * f_equal. exact Heq.
      * apply Hbad.
      * apply Hbad.
      * exact Hnext.
Qed.

Lemma exported_deltas_nonneg (evl : list event) :
  forall prev, Forall (fun ed => 0 <= snd ed) (exported_events evl prev).
Proof.
  induction evl as [| e tail IH]; intros prev; cbn [exported_events].
  - constructor.
  - destruct (Z.ltb_spec (timestamp e - prev) 0) as [Hneg | Hpos].
    + constructor.
    + constructor; [exact Hpos | apply IH].
Qed.

(** C2, as amended: [track::fill] writes the sequence number (with
    SeqSpec), the track name, the events that come before the first
    negative delta time, then the SeqSpec section (with SeqSpec) and the
    end of the track.  At the first negative delta time the diagnostic is
    printed and the event loop is left: that event and all later ones are
    not written, while the SeqSpec section and the end-of-track event still
    are. *)
Theorem fill_stops_events_at_bad_delta (cfg : settings) s (track : Z)
    (doseqspec : bool) :
  let evl := sort (sequence.m_events s) in
  let last := last_timestamp evl 0 in
  writes (fill cfg s track doseqspec) (bad_delta evl 0)
    ((if doseqspec then output (fill_seq_number track) else [])
     ++ output (fill_seq_name (sequence.m_name s))
     ++ events_bytes s (exported_events evl 0)
     ++ (if doseqspec then output (fill_seqspec cfg s) else [])
     ++ output
          (fill_meta_track_end
             (if sequence.m_length s <? last then 0
              else sequence.m_length s - last)))
  /\ Forall (fun ed => 0 <= snd ed) (exported_events evl 0)
  /\ exists rest,
       evl = map fst (exported_events evl 0) ++ rest
       /\ (bad_delta evl 0 = true <-> rest <> [])
       /\ (forall e rest', rest = e :: rest' -> timestamp e - last < 0).
Proof.
  intros evl last. split; [apply writes_fill |].
  split; [apply exported_deltas_nonneg | apply exported_events_prefix].
Qed.

(** C8: with SeqSpec, [track::fill] chooses the trigger tag once, the
    transposed tag exactly when old-style triggers are not to be saved and
    some trigger has a non-zero transposition; the one block that follows
    the events holds every trigger of the list, each with its transpose
    byte under the transposed tag and without it under the other. *)
Theorem fill_trigger_tag (cfg : settings) s (track : Z) :
  let transtriggers :=
    negb (save_old_triggers cfg)
    && existsb (fun t => negb (trigger.transpose t =? 0))
         (sequence.m_triggers s) in
  let tag := if transtriggers then c_trig_transpose else c_triggers_ex in
  let evl := sort (sequence.m_events s) in
  let last := last_timestamp evl 0 in
  writes (fill cfg s track true) (bad_delta evl 0)
    (output (fill_seq_number track)
     ++ output (fill_seq_name (sequence.m_name s))
     ++ events_bytes s (exported_events evl 0)
     ++ (output
           (put_seqspec tag
              (triggers_list_datasize (sequence.m_triggers s) tag))
         ++ concat
              (map
                 (fun t =>
                    long_bytes (to_ulong (trigger.tick_start t))
                    ++ long_bytes (to_ulong (trigger.tick_end t))
                    ++ long_bytes (to_ulong (trigger.offset t))
                    ++ (if transtriggers then [to_byte (transpose_byte t)]
                        else []))
                 (sequence.m_triggers s))
         ++ output (fill_proprietary cfg s))
     ++ output
          (fill_meta_track_end
             (if sequence.m_length s <? last then 0
              else sequence.m_length s - last))).
Proof.
  intros transtriggers tag evl last.
  pose proof (writes_fill cfg s track true) as Hfill.
  cbv zeta in Hfill. fold evl in Hfill. fold last in Hfill.
  rewrite (writes_output _ _ _ (writes_fill_seqspec cfg s)) in Hfill.
  exact Hfill.
Qed.

End FillClaims.

(** ** A pattern of length zero *)

Section ZeroLength.

Context {event : Type} `{Platform} `{EventApi event}.

Lemma song_fill_seq_event_zero_length (s : sequence.t event) trig prev bytes :
  sequence.m_length s = 0 ->
  song_fill_seq_event s trig prev bytes = Fault DivideByZero.
Proof.
  intros Hlen. unfold song_fill_seq_event, sequence.get_length, pulse_rem.
  rewrite Hlen. reflexivity.
Qed.

Lemma mod_last_tick_zero_length (s : sequence.t event) :
  sequence.m_length s = 0 -> sequence.mod_last_tick s = sequence.m_last_tick s.
Proof. intros Hlen. unfold sequence.mod_last_tick. rewrite Hlen. reflexivity. Qed.

End ZeroLength.

(** * Further properties of the exporter *)

(** ** Fixed-width integers *)

Lemma byte_field (x k : Z) :
  0 <= k -> Z.shiftr (Z.land x (Z.shiftl 0xFF k)) k = (x / 2 ^ k) mod 256.
Proof.
  intros Hk. rewrite Z.shiftr_land.
  rewrite Z.shiftr_shiftl_l by lia.
  rewrite Z.sub_diag, Z.shiftl_0_r, land_255.
  rewrite Z.shiftr_div_pow2 by lia. reflexivity.
Qed.

Lemma long_bytes_fields (x : Z) :
  long_bytes x
  = [(x / 2 ^ 24) mod 256; (x / 2 ^ 16) mod 256; (x / 2 ^ 8) mod 256;
     x mod 256].
Proof.
  unfold long_bytes, to_byte.
  change 0xFF000000 with (Z.shiftl 0xFF 24).
  change 0x00FF0000 with (Z.shiftl 0xFF 16).
  change 0x0000FF00 with (Z.shiftl 0xFF 8).
  rewrite !byte_field by lia. rewrite land_255.
  rewrite !Z.mod_mod by lia. reflexivity.
Qed.

Lemma short_bytes_fields (x : Z) :
  short_bytes x = [(x / 2 ^ 8) mod 256; x mod 256].
Proof.
  unfold short_bytes, to_byte.
  change 0x0000FF00 with (Z.shiftl 0xFF 8).
  rewrite !byte_field by lia. rewrite land_255.
  rewrite !Z.mod_mod by lia. reflexivity.
Qed.

(** X1: [track::add_long] appends four bytes, each below 256, that hold
    the low 32 bits of its argument, most significant byte first. *)
Theorem add_long_big_endian (x : Z) :
  exists b3 b2 b1 b0,
    writes (add_long x) tt [b3; b2; b1; b0]
    /\ 0 <= b3 < 256 /\ 0 <= b2 < 256 /\ 0 <= b1 < 256 /\ 0 <= b0 < 256
    /\ b3 * 2 ^ 24 + b2 * 2 ^ 16 + b1 * 2 ^ 8 + b0 = x mod 2 ^ 32.
Proof.
  exists ((x / 2 ^ 24) mod 256), ((x / 2 ^ 16) mod 256),
    ((x / 2 ^ 8) mod 256), (x mod 256).
  split.
  - rewrite <- long_bytes_fields.
    unfold add_long. repeat apply writes_put_then. apply writes_put.
  - change (2 ^ 16) with 65536. divmod.
Qed.

(** X2: [track::add_short] appends two bytes, each below 256, that hold
    the low 16 bits of its argument, most significant byte first. *)
Theorem add_short_big_endian (x : Z) :
  exists b1 b0,
    writes (add_short x) tt [b1; b0]
    /\ 0 <= b1 < 256 /\ 0 <= b0 < 256
    /\ b1 * 2 ^ 8 + b0 = x mod 2 ^ 16.
Proof.
  exists ((x / 2 ^ 8) mod 256), (x mod 256).
  split.
  - rewrite <- short_bytes_fields.
    unfold add_short. repeat apply writes_put_then. apply writes_put.
  - change (2 ^ 16) with 65536. divmod.
Qed.

(** ** Variable-length quantities of any size *)

Section VarinumGeneral.

Context `{Platform}.

Lemma emit_groups_framed (n : nat) : forall buffer,
  0 <= buffer < 2 ^ Z.of_nat n ->
  exists init final,
    writes (emit_groups (S n) buffer) tt (init ++ [final])
    /\ Forall (fun b => 128 <= b < 256) init
    /\ 0 <= final < 128.
Proof.
  induction n as [| n IH]; intros buffer Hb.
  - assert (buffer = 0) as -> by (change (2 ^ Z.of_nat 0) with 1 in Hb; lia).
    exists [], 0. split; [| split; [constructor | lia]].
    intros bytes. reflexivity.
  - pose proof (Z.mod_pos_bound buffer 256 ltac:(lia)) as Hlow.
    destruct (Z.lt_ge_cases (buffer mod 256) 128) as [Hlt | Hge].
    + exists [], (buffer mod 256).
      split; [apply emit_groups_done; exact Hlt |].
      split; [constructor | lia].
    + destruct (IH (buffer / 256)) as (init & final & Hw & Hinit & Hfinal).
      { apply shrink_below; [lia | exact Hb]. }
      exists (buffer mod 256 :: init), final.
      split; [apply emit_groups_more; assumption |].
      split; [constructor; [lia | exact Hinit] | exact Hfinal].
Qed.

Lemma add_varinum_framed_ulong (v : Z) :
  0 <= v < 2 ^ ulong_bits ->
  exists init final,
    writes (add_varinum v) tt (init ++ [final])
    /\ Forall (fun b => 128 <= b < 256) init
    /\ 0 <= final < 128.
Proof.
  intros Hv. unfold add_varinum, loop_fuel.
  pose proof ulong_bits_nonneg as Hw.
  destruct (pack_groups_total (Z.to_nat ulong_bits) v (Z.land v 127))
    as (packed & -> & Hp).
  - rewrite Z2Nat.id by exact Hw. exact Hv.
  - rewrite land_127. pose proof (Z.mod_pos_bound v 128).
    pose proof ulong_range_32. lia.
  - apply emit_groups_framed. rewrite Z2Nat.id by exact Hw. exact Hp.
Qed.

(** X3: whatever the delta time or length, [track::add_varinum] comes to
    an end and appends at least one byte; every byte but the last is
    between 0x80 and 0xFF and the last is below 0x80, so the quantity ends
    where a reader expects it to, also for a value too large for the
    buffer. *)
Theorem add_varinum_framed (x : Z) :
  exists init final,
    writes (add_varinum (to_ulong x)) tt (init ++ [final])
    /\ varinum_bytes (to_ulong x) = init ++ [final]
    /\ Forall (fun b => 128 <= b < 256) init
    /\ 0 <= final < 128.
Proof.
  destruct (add_varinum_framed_ulong (to_ulong x) (to_ulong_range x))
    as (init & final & Hw & Hinit & Hfinal).
  exists init, final. split; [exact Hw |].
  split; [apply varinum_bytes_unique; exact Hw |]. auto.
Qed.

Lemma le_value_bound (bs : list Z) :
  Forall (fun b => 0 <= b < 256) bs ->
  0 <= le_value bs < 2 ^ (8 * Z.of_nat (List.length bs)).
Proof.
  induction 1 as [| b bs Hb _ IH]; cbn [le_value fold_right List.length].
  - change (2 ^ (8 * Z.of_nat 0)) with 1. lia.
  - fold (le_value bs).
    replace (8 * Z.of_nat (S (List.length bs)))
      with (8 + 8 * Z.of_nat (List.length bs)) by lia.
    rewrite Z.pow_add_r by lia. change (2 ^ 8) with 256. lia.
Qed.

Lemma pack_groups_list (turns : nat) : forall (fuel : nat) (v : Z) (bs : list Z),
  (turns < fuel)%nat ->
  0 <= v < 2 ^ (7 * Z.of_nat (S turns)) ->
  Forall (fun b => 0 <= b < 256) bs ->
  8 * Z.of_nat (List.length bs + turns) <= ulong_bits ->
  pack_groups fuel v (le_value bs) = Some (le_value (pack_list turns v bs)).
Proof.
  induction turns as [| turns IH]; intros fuel v bs Hfuel Hv Hbs Hroom.
  - destruct fuel as [| fuel]; [lia |].
    change (2 ^ (7 * Z.of_nat 1)) with 128 in Hv.
    apply pack_groups_done. apply Z.div_small. lia.
  - destruct fuel as [| fuel]; [lia |].
    cbn [pack_groups pack_list]. rewrite shiftr_7.
    destruct (Z.eqb_spec (v / 128) 0) as [Hz | Hnz]; [reflexivity |].
    pose proof (Z.mod_pos_bound (v / 128) 128 ltac:(lia)) as Hg.
    pose proof (le_value_bound bs Hbs) as Hle.
    assert (Hfit : 2 ^ (8 * Z.of_nat (List.length bs)) * 256 <= 2 ^ ulong_bits).
    { change 256 with (2 ^ 8). rewrite <- Z.pow_add_r by lia.
      apply Z.pow_le_mono_r; lia. }
    rewrite shiftl_8, land_127, lor_flag by lia.
    unfold to_ulong. rewrite Z.mod_small by nia.
    rewrite lor_low_byte by lia.
    replace (le_value bs * 256 + ((v / 128) mod 128 + 128))
      with (le_value (((v / 128) mod 128 + 128) :: bs))
      by (cbn [le_value fold_right]; fold (le_value bs); lia).
    apply IH.
    + lia.
    + replace (7 * Z.of_nat (S (S turns)))
        with (7 + 7 * Z.of_nat (S turns)) in Hv by lia.
      rewrite Z.pow_add_r in Hv by lia. change (2 ^ 7) with 128 in Hv.
      split; [apply Z.div_pos; lia | apply Z.div_lt_upper_bound; lia].
    + constructor; [lia | exact Hbs].
    + cbn [List.length]. lia.
Qed.

Lemma pack_list_shape (turns : nat) : forall (v : Z) (bs : list Z),
  exists front,
    pack_list turns v bs = front ++ bs
    /\ Forall (fun b => 128 <= b < 256) front
    /\ (List.length front <= turns)%nat.
Proof.
  induction turns as [| turns IH]; intros v bs.
  - exists []. split; [reflexivity | split; [constructor | cbn; lia]].
  - cbn [pack_list].
    destruct (v / 128 =? 0).
    + exists []. split; [reflexivity | split; [constructor | cbn; lia]].
    + destruct (IH (v / 128) (((v / 128) mod 128 + 128) :: bs))
        as (front & Heq & Hfront & Hlen).
      exists (front ++ [(v / 128) mod 128 + 128]).
      split; [rewrite Heq, <- app_assoc; reflexivity |].
      split.
      * apply Forall_app. split; [exact Hfront |].
        constructor; [| constructor].
        pose proof (Z.mod_pos_bound (v / 128) 128 ltac:(lia)). lia.
      * rewrite length_app. cbn [List.length]. lia.
Qed.

Lemma emit_groups_list (front : list Z) : forall (fuel : nat) (final : Z),
  Forall (fun b => 128 <= b < 256) front ->
  0 <= final < 128 ->
  (List.length front < fuel)%nat ->
  writes (emit_groups fuel (le_value (front ++ [final]))) tt (front ++ [final]).
Proof.
  induction front as [| b front IH]; intros fuel final Hfront Hfinal Hfuel.
  - destruct fuel as [| fuel]; [cbn in Hfuel; lia |].
    cbn [app le_value fold_right]. rewrite Z.mul_0_r, Z.add_0_r.
    eapply writes_out; [apply emit_groups_done |];
      rewrite Z.mod_small by lia; [lia | reflexivity].
  - destruct fuel as [| fuel]; [cbn in Hfuel; lia |].
    inversion Hfront as [| ? ? Hb Hrest]; subst.
    cbn [app le_value fold_right]. fold (le_value (front ++ [final])).
    assert (Hmod : (b + 256 * le_value (front ++ [final])) mod 256 = b).
    { generalize (le_value (front ++ [final])). intros rest.
      Z.div_mod_to_equations. lia. }
    assert (Hdiv : (b + 256 * le_value (front ++ [final])) / 256
                   = le_value (front ++ [final])).
    { generalize (le_value (front ++ [final])). intros rest.
      Z.div_mod_to_equations. lia. }
    eapply writes_out.
    + apply emit_groups_more.
      * rewrite Hmod. lia.
      * rewrite Hdiv. apply IH; [exact Hrest | exact Hfinal |].
        cbn [List.length] in Hfuel. lia.
    + rewrite Hmod. reflexivity.
Qed.

Lemma vlq_value_from (bs : list Z) : forall acc,
  fold_left (fun acc b => acc * 128 + Z.land b 0x7F) bs acc
  = acc * 128 ^ Z.of_nat (List.length bs) + vlq_value bs.
Proof.
  unfold vlq_value.
  induction bs as [| b bs IH]; intros acc.
  - cbn. lia.
  - cbn [fold_left List.length].
    rewrite IH, (IH (0 * 128 + Z.land b 127)).
    rewrite Nat2Z.inj_succ, Z.pow_succ_r by lia. ring.
Qed.

Lemma vlq_value_cons (b : Z) (bs : list Z) :
  vlq_value (b :: bs)
  = Z.land b 0x7F * 128 ^ Z.of_nat (List.length bs) + vlq_value bs.
Proof.
  unfold vlq_value at 1. cbn [fold_left].
  rewrite vlq_value_from. ring.
Qed.

Lemma pack_list_value (turns : nat) : forall (v : Z) (bs : list Z),
  0 <= v < 2 ^ (7 * Z.of_nat (S turns)) ->
  vlq_value (pack_list turns v bs)
  = (v / 128) * 128 ^ Z.of_nat (List.length bs) + vlq_value bs.
Proof.
  induction turns as [| turns IH]; intros v bs Hv.
  - change (2 ^ (7 * Z.of_nat 1)) with 128 in Hv.
    cbn [pack_list]. rewrite Z.div_small by lia. lia.
  - cbn [pack_list].
    destruct (Z.eqb_spec (v / 128) 0) as [Hz | Hnz]; [rewrite Hz; lia |].
    rewrite IH.
    + rewrite vlq_value_cons. cbn [List.length].
      pose proof (Z.mod_pos_bound (v / 128) 128 ltac:(lia)) as Hg.
      rewrite land_127.
      replace (((v / 128) mod 128 + 128) mod 128) with ((v / 128) mod 128)
        by divmod.
      rewrite Nat2Z.inj_succ, Z.pow_succ_r by lia.
      rewrite (Z.div_mod (v / 128) 128) at 3 by lia. ring.
    + replace (7 * Z.of_nat (S (S turns)))
        with (7 + 7 * Z.of_nat (S turns)) in Hv by lia.
      rewrite Z.pow_add_r in Hv by lia. change (2 ^ 7) with 128 in Hv.
      split; [apply Z.div_pos; lia | apply Z.div_lt_upper_bound; lia].
Qed.

(** X4: a value of at most [k] seven-bit groups, where the buffer of
    [track::add_varinum] has room for [k] bytes, is written in at most [k]
    bytes whose groups, most significant first, give the value back. *)
Theorem add_varinum_value (k : nat) (v : Z) :
  (1 <= k)%nat ->
  8 * Z.of_nat k <= ulong_bits ->
  0 <= v < 2 ^ (7 * Z.of_nat k) ->
  writes (add_varinum v) tt (varinum_bytes v)
  /\ (1 <= List.length (varinum_bytes v) <= k)%nat
  /\ vlq_value (varinum_bytes v) = v.
Proof.
  intros Hk Hroom Hv.
  destruct k as [| turns]; [lia |].
  pose proof (Z.mod_pos_bound v 128 ltac:(lia)) as Hlast.
  destruct (pack_list_shape turns v [v mod 128])
    as (front & Hshape & Hfront & Hlen).
  assert (Hw : writes (add_varinum v) tt (front ++ [v mod 128])).
  { unfold add_varinum, loop_fuel. rewrite land_127.
    replace (v mod 128) with (le_value [v mod 128]) at 1
      by (cbn [le_value fold_right]; lia).
    rewrite (pack_groups_list turns); try lia.
    - rewrite Hshape. apply emit_groups_list; [exact Hfront | lia | lia].
    - constructor; [lia | constructor].
    - cbn [List.length]. lia. }
  rewrite (varinum_bytes_unique v _ Hw).
  split; [exact Hw |]. split.
  - rewrite length_app. cbn [List.length]. lia.
  - rewrite <- Hshape, pack_list_value by exact Hv.
    unfold vlq_value. cbn [fold_left List.length].
    rewrite land_127, Z.mod_mod by lia.
    change (128 ^ Z.of_nat 1) with 128.
    rewrite (Z.div_mod v 128) at 3 by lia. ring.
Qed.

End VarinumGeneral.

(** ** The framing of a track *)

Section FramingFacts.

Context {event : Type} `{Platform} `{EventApi event}.

Implicit Type s : sequence.t event.

Lemma varinum_bytes_small (x : Z) :
  0 <= x < 128 -> varinum_bytes (to_ulong x) = [x].
Proof.
  intros Hx. rewrite to_ulong_small by lia.
  apply varinum_bytes_1. pow2_numerals. lia.
Qed.

Lemma writes_meta_header (metavalue datalen : Z) :
  0 <= metavalue < 256 -> 0 <= datalen < 128 ->
  writes (put_meta metavalue datalen 0) tt [0; 0xFF; metavalue; datalen].
Proof.
  intros Hm Hd.
  eapply writes_out; [apply writes_put_meta |].
  rewrite !varinum_bytes_small by lia.
  unfold to_byte, EVENT_MIDI_META. rewrite !Z.mod_small by lia. reflexivity.
Qed.

Lemma seq_number_event_bytes (seq : Z) :
  writes (fill_seq_number seq) tt
    [0; 0xFF; 0x00; 0x02; (seq / 2 ^ 8) mod 256; seq mod 256]
  /\ (0 <= seq < 2 ^ 16 ->
      ((seq / 2 ^ 8) mod 256) * 2 ^ 8 + seq mod 256 = seq).
Proof.
  split.
  - unfold fill_seq_number.
    eapply writes_out.
    + eapply writes_bind;
        [apply (writes_meta_header EVENT_META_SEQ_NUMBER 2);
         unfold EVENT_META_SEQ_NUMBER; lia
        | apply writes_add_short].
    + rewrite short_bytes_fields. unfold to_ushort, EVENT_META_SEQ_NUMBER.
      cbn [app]. repeat (apply (f_equal2 cons); [try reflexivity |]);
        try reflexivity; change (2 ^ 16) with 65536; divmod.
  - intros Hseq. change (2 ^ 16) with 65536 in Hseq. divmod.
Qed.

(** X5: [track::fill_seq_number] appends the six bytes
    [00 FF 00 02 ss ss], where [ss ss] are the low 16 bits of the number,
    most significant byte first. *)
Theorem fill_seq_number_bytes (seq : Z) :
  writes (fill_seq_number seq) tt
    [0; 0xFF; 0x00; 0x02; (seq / 2 ^ 8) mod 256; seq mod 256]
  /\ (0 <= seq < 2 ^ 16 ->
      ((seq / 2 ^ 8) mod 256) * 2 ^ 8 + seq mod 256 = seq).
Proof. apply seq_number_event_bytes. Qed.

Lemma byte_of_char_range (c : Ascii.ascii) : 0 <= byte_of_char c < 256.
Proof.
  unfold byte_of_char. pose proof (Ascii.N_ascii_bounded c). lia.
Qed.

Lemma name_bytes_are_bytes (name : list Ascii.ascii) :
  map to_byte (map byte_of_char name) = map byte_of_char name.
Proof.
  induction name as [| c name IH]; [reflexivity |].
  cbn [map]. rewrite IH. unfold to_byte.
  rewrite Z.mod_small by apply byte_of_char_range. reflexivity.
Qed.

Lemma name_length (name : String.string) :
  List.length (String.list_ascii_of_string name) = String.length name.
Proof.
  induction name as [| c name IH]; [reflexivity |].
  cbn. rewrite IH. reflexivity.
Qed.

(** X6: for a name of fewer than 128 characters [track::fill_seq_name]
    appends [00 FF 03], the number of characters, and the characters, so
    the length byte counts exactly the bytes that follow it. *)
Theorem fill_seq_name_bytes (name : String.string) :
  (String.length name < 128)%nat ->
  let chars := map byte_of_char (String.list_ascii_of_string name) in
  writes (fill_seq_name name) tt
    ([0; 0xFF; 0x03; Z.of_nat (String.length name)] ++ chars)
  /\ List.length chars = String.length name
  /\ Forall (fun b => 0 <= b < 256) chars.
Proof.
  intros Hlen chars. split; [| split].
  - unfold fill_seq_name.
    eapply writes_out.
    + eapply writes_bind;
        [apply (writes_meta_header EVENT_META_TRACK_NAME);
         unfold EVENT_META_TRACK_NAME; lia
        | apply writes_put_bytes].
    + fold chars. subst chars. rewrite name_bytes_are_bytes. reflexivity.
  - subst chars. rewrite length_map. apply name_length.
  - subst chars.
    induction (String.list_ascii_of_string name) as [| c l IH];
      cbn [map]; constructor; [apply byte_of_char_range | exact IH].
Qed.

(** X7: for a tag of 32 bits and a payload of fewer than 124 bytes
    [track::put_seqspec] appends the eight bytes [00 FF 7F nn tt tt tt tt]:
    [nn] is the payload length plus the four bytes of the tag, and the tag
    follows with its most significant byte first. *)
Theorem put_seqspec_bytes (spec datalen : Z) :
  0 <= spec < 2 ^ 32 -> 0 <= datalen < 124 ->
  writes (put_seqspec spec datalen) tt
    [0; 0xFF; 0x7F; datalen + 4;
     spec / 2 ^ 24; (spec / 2 ^ 16) mod 256; (spec / 2 ^ 8) mod 256;
     spec mod 256].
Proof.
  intros Hspec Hlen. unfold put_seqspec. cbv zeta.
  eapply writes_out.
  - eapply writes_bind;
      [apply (writes_meta_header EVENT_META_SEQSPEC);
       unfold EVENT_META_SEQSPEC; lia
      | apply writes_add_long].
  - rewrite long_bytes_fields, to_ulong_small by lia.
    unfold EVENT_META_SEQSPEC. cbn [app].
    repeat (apply (f_equal2 cons); [try reflexivity |]); try reflexivity.
    change (2 ^ 32) with 4294967296 in Hspec. divmod.
Qed.

Lemma track_end_bytes (deltatime : Z) :
  output (fill_meta_track_end deltatime)
  = varinum_bytes (to_ulong deltatime) ++ [0xFF; 0x2F; 0x00].
Proof.
  rewrite (writes_output _ _ _ (writes_fill_meta_track_end deltatime)).
  rewrite (varinum_bytes_small 0) by lia. reflexivity.
Qed.

(** X8: [track::fill] never faults, keeps what the container held, and
    always closes the track: with SeqSpec the bytes it appends begin with
    the sequence-number event, and in every case they end with the
    end-of-track event [FF 2F 00], also after a negative delta time. *)
Theorem fill_track_framing (cfg : settings) s (track : Z) (doseqspec : bool) :
  exists (bad : bool) (body : list Z),
    writes (fill cfg s track doseqspec) bad
      ((if doseqspec
        then [0; 0xFF; 0x00; 0x02; (track / 2 ^ 8) mod 256; track mod 256]
        else [])
       ++ body ++ [0xFF; 0x2F; 0x00]).
Proof.
  pose proof (writes_fill cfg s track doseqspec) as Hfill.
  cbv zeta in Hfill.
  set (evl := sort (sequence.m_events s)) in *.
  set (deltatime := if sequence.m_length s <? last_timestamp evl 0 then 0
                    else sequence.m_length s - last_timestamp evl 0) in *.
  exists (bad_delta evl 0).
  exists (output (fill_seq_name (sequence.m_name s))
          ++ events_bytes s (exported_events evl 0)
          ++ (if doseqspec then output (fill_seqspec cfg s) else [])
          ++ varinum_bytes (to_ulong deltatime)).
  eapply writes_out; [exact Hfill |].
  rewrite track_end_bytes.
  rewrite (writes_output _ _ _ (proj1 (seq_number_event_bytes track))).
  rewrite <- !app_assoc. reflexivity.
Qed.

End FramingFacts.

(** ** What a replay pass writes and what it keeps *)

Section ReplayFacts.

Context {event : Type} `{Platform} `{EventApi event}.

Implicit Type s : sequence.t event.
Implicit Type e : event.
Implicit Type trig : trigger.t.

Lemma drop_past_end_inv trig (used used' : list Z) e e' (ts ts' : Z) :
  drop_past_end trig used e ts = Ok (used', Some (e', ts')) ->
  used' = used /\ e' = e /\ ts' = ts
  /\ (ts < trigger.tick_end trig \/ is_note e = true).
Proof.
  unfold drop_past_end.
  destruct (Z.geb_spec ts (trigger.tick_end trig)) as [Hge | Hlt];
    destruct (is_note e); cbn [andb negb]; intros Hdrop;
    try discriminate Hdrop; injection Hdrop as <- <- <-; auto.
Qed.

Lemma drop_past_end_table trig (used used' : list Z) e (ts : Z) r :
  drop_past_end trig used e ts = Ok (used', r) -> used' = used.
Proof.
  unfold drop_past_end. destruct (_ && _); intros [= <- _]; reflexivity.
Qed.

Lemma replay_window_facts trig (time_offset : Z) (used used' : list Z)
    e e' (ts' : Z) :
  replay_event trig time_offset used e = Ok (used', Some (e', ts')) ->
  let ts := timestamp e + time_offset in
  trigger.tick_start trig <= ts
  /\ (is_note e = false ->
      e' = e /\ ts' = ts /\ ts < trigger.tick_end trig)
  /\ (is_note e = true ->
      e' = (if trigger.transposed trig
            then transpose_note (trigger.transpose trig) e else e)
      /\ (is_note_on e' = true -> ts' = ts /\ ts <= trigger.tick_end trig)
      /\ (is_note_on e' = false -> is_note_off e' = true ->
          ts' = Z.min ts (trigger.tick_end trig))
      /\ (is_note_on e' = false -> is_note_off e' = false -> ts' = ts))
  /\ (trigger.tick_start trig <= trigger.tick_end trig ->
      trigger.tick_start trig <= ts').
Proof.
  intros Hrun ts. unfold replay_event in Hrun. fold ts in Hrun.
  destruct (Z.geb_spec ts (trigger.tick_start trig)) as [Hstart | Hlt];
    [| discriminate Hrun].
  split; [lia |].
  unfold transposed_copy in Hrun.
  set (copy := if trigger.transposed trig
               then transpose_note (trigger.transpose trig) e else e) in *.
  destruct (is_note e) eqn:Hnote.
  - split; [discriminate |].
    destruct (is_note_on copy) eqn:Hon.
    + destruct (Z.leb_spec ts (trigger.tick_end trig)) as [Hend | Hend];
        [| discriminate Hrun].
      destruct (used !! Z.to_nat (get_note e)) as [count |];
        [| discriminate Hrun].
      apply drop_past_end_inv in Hrun as (_ & -> & -> & _).
      rewrite Hon. repeat split; auto; try discriminate; lia.
    + destruct (is_note_off copy) eqn:Hoff.
      * destruct (used !! Z.to_nat (get_note e)) as [count |];
          [| discriminate Hrun].
        destruct (count >? 0); [| discriminate Hrun].
        apply drop_past_end_inv in Hrun as (_ & -> & -> & _).
        rewrite Hon, Hoff.
        assert (Hmin : (if ts >? trigger.tick_end trig
                        then trigger.tick_end trig else ts)
                       = Z.min ts (trigger.tick_end trig))
          by (destruct (Z.gtb_spec ts (trigger.tick_end trig)); lia).
        rewrite Hmin.
        repeat split; auto; try discriminate; lia.
      * apply drop_past_end_inv in Hrun as (_ & -> & -> & _).
        rewrite Hon, Hoff.
        repeat split; auto; try discriminate; lia.
  - apply drop_past_end_inv in Hrun as (_ & -> & -> & [Hend | Hn]);
      [| congruence].
    repeat split; auto; try discriminate; lia.
Qed.

(** X9: a replay pass writes nothing before the start of the trigger, and
    after its end only events that the code takes for notes without being
    note on or note off: an event that is not a note is written strictly
    before the end, a note on at or before it, and a note off at the
    earlier of its own tick and the end.  Note events are written as the
    transposed copy, other events unchanged. *)
Theorem replay_event_window trig (time_offset : Z) (used used' : list Z)
    e e' (ts' : Z) :
  replay_event trig time_offset used e = Ok (used', Some (e', ts')) ->
  let ts := timestamp e + time_offset in
  trigger.tick_start trig <= ts
  /\ (is_note e = false ->
      e' = e /\ ts' = ts /\ ts < trigger.tick_end trig)
  /\ (is_note e = true ->
      e' = (if trigger.transposed trig
            then transpose_note (trigger.transpose trig) e else e)
      /\ (is_note_on e' = true -> ts' = ts /\ ts <= trigger.tick_end trig)
      /\ (is_note_on e' = false -> is_note_off e' = true ->
          ts' = Z.min ts (trigger.tick_end trig))
      /\ (is_note_on e' = false -> is_note_off e' = false -> ts' = ts))
  /\ (trigger.tick_start trig <= trigger.tick_end trig ->
      trigger.tick_start trig <= ts').
Proof. apply replay_window_facts. Qed.

Lemma replay_table_facts trig (time_offset : Z) (used used' : list Z) e r :
  replay_event trig time_offset used e = Ok (used', r) ->
  List.length used' = List.length used
  /\ (forall i : nat, i <> Z.to_nat (get_note e) -> used' !! i = used !! i)
  /\ (Forall (fun count => 0 <= count) used ->
      Forall (fun count => 0 <= count) used').
Proof.
  unfold replay_event, transposed_copy.
  set (copy := if trigger.transposed trig
               then transpose_note (trigger.transpose trig) e else e).
  set (note := Z.to_nat (get_note e)).
  assert (Hsame : forall u, u = used ->
            List.length u = List.length used
            /\ (forall i : nat, i <> note -> u !! i = used !! i)
            /\ (Forall (fun count => 0 <= count) used ->
                Forall (fun count => 0 <= count) u))
    by (intros u ->; auto).
  assert (Hset : forall count c,
            used !! note = Some count -> (0 <= count -> 0 <= c) ->
            List.length (<[note := c]> used) = List.length used
            /\ (forall i : nat, i <> note ->
                  <[note := c]> used !! i = used !! i)
            /\ (Forall (fun count => 0 <= count) used ->
                Forall (fun count => 0 <= count) (<[note := c]> used))).
  { intros count c Hlook Hc. split; [apply length_insert |]. split.
    - intros i Hi. apply list_lookup_insert_ne. congruence.
    - intros Hall. apply Forall_insert; [exact Hall |].
      apply Hc. exact (Forall_lookup_1 _ _ _ _ Hall Hlook). }
  destruct (timestamp e + time_offset >=? trigger.tick_start trig);
    [| intros [= <- _]; apply Hsame; reflexivity].
  destruct (is_note e).
  - destruct (is_note_on copy).
    + destruct (timestamp e + time_offset <=? trigger.tick_end trig);
        [| intros [= <- _]; apply Hsame; reflexivity].
      destruct (used !! note) as [count |] eqn:Hlook; [| discriminate].
      intros Hrun. apply drop_past_end_table in Hrun as ->.
      apply (Hset count); [reflexivity | lia].
    + destruct (is_note_off copy).
      * destruct (used !! note) as [count |] eqn:Hlook; [| discriminate].
        destruct (Z.gtb_spec count 0) as [Hpos | Hle];
          [| intros [= <- _]; apply Hsame; reflexivity].
        intros Hrun. apply drop_past_end_table in Hrun as ->.
        apply (Hset count); [reflexivity | lia].
      * intros Hrun. apply drop_past_end_table in Hrun as ->.
        apply Hsame. reflexivity.
  - intros Hrun. apply drop_past_end_table in Hrun as ->.
    apply Hsame. reflexivity.
Qed.

(** X10: the loop body of [track::song_fill_seq_event] keeps the size of
    the note table, touches no entry but that of the note of the event,
    and never brings a count below zero. *)
Theorem replay_event_table trig (time_offset : Z) (used used' : list Z) e r :
  replay_event trig time_offset used e = Ok (used', r) ->
  List.length used' = List.length used
  /\ (forall i : nat, i <> Z.to_nat (get_note e) -> used' !! i = used !! i)
  /\ (Forall (fun count => 0 <= count) used ->
      Forall (fun count => 0 <= count) used').
Proof. apply replay_table_facts. Qed.

End ReplayFacts.

(** ** Song export runs to completion *)

Section SongRuns.

Context {event : Type} `{Platform} `{EventApi event}.

Implicit Type s : sequence.t event.
Implicit Type e : event.
Implicit Type trig : trigger.t.

Lemma drop_past_end_runs trig (used : list Z) e (ts : Z) :
  exists r, drop_past_end trig used e ts = Ok (used, r).
Proof. unfold drop_past_end. destruct (_ && _); eexists; reflexivity. Qed.

Lemma replay_event_runs trig (time_offset : Z) (used : list Z) e :
  (is_note e = true -> 0 <= get_note e < Z.of_nat (List.length used)) ->
  exists used' r, replay_event trig time_offset used e = Ok (used', r).
Proof.
  intros Hnote. unfold replay_event.
  destruct (_ >=? _); [| eexists; eexists; reflexivity].
  destruct (is_note e); [| eexists; apply drop_past_end_runs].
  assert (Hin : is_Some (used !! Z.to_nat (get_note e))).
  { apply lookup_lt_is_Some. specialize (Hnote eq_refl). lia. }
  destruct Hin as [count Hlook]. rewrite Hlook.
  destruct (is_note_on _).
  - destruct (_ <=? _); [eexists; apply drop_past_end_runs |].
    eexists; eexists; reflexivity.
  - destruct (is_note_off _); [| eexists; apply drop_past_end_runs].
    destruct (count >? 0); [eexists; apply drop_past_end_runs |].
    eexists; eexists; reflexivity.
Qed.

Lemma replay_pass_runs s trig (time_offset : Z) (n : nat) (evs : list event) :
  notes_below n evs ->
  forall st, List.length (snd st) = n ->
    exists st' out,
      writes (replay_pass s trig time_offset evs st) st' out
      /\ List.length (snd st') = n.
Proof.
  induction 1 as [| e evs He _ IH]; intros [prev used] Hlen.
  - exists (prev, used), []. split; [apply writes_ret | exact Hlen].
  - cbn [snd] in Hlen. cbn [replay_pass].
    destruct (replay_event_runs trig time_offset used e) as (used' & r & Hrun).
    { rewrite Hlen. exact He. }
    rewrite Hrun.
    pose proof (replay_table_facts trig time_offset used used' e r Hrun)
      as (Hlen' & _).
    destruct r as [[e' ts'] |].
    + destruct (IH (ts', used')) as (st' & out & Hw & Hn);
        [cbn [snd]; lia |].
      exists st', (output (add_event s e' (ts' - prev)) ++ out).
      split; [| exact Hn].
      eapply writes_bind; [apply writes_add_event | exact Hw].
    + destruct (IH (prev, used')) as (st' & out & Hw & Hn);
        [cbn [snd]; lia |].
      exists st', out. auto.
Qed.

Lemma replay_passes_runs s trig (n passes : nat) :
  notes_below n (sequence.m_events s) ->
  forall (time_offset : Z) st, List.length (snd st) = n ->
    exists st' out,
      writes (replay_passes s trig passes time_offset st) st' out
      /\ List.length (snd st') = n.
Proof.
  intros Hnotes.
  induction passes as [| passes IH]; intros time_offset st Hlen.
  - exists st, []. split; [apply writes_ret | exact Hlen].
  - cbn [replay_passes]. unfold sequence.events.
    destruct (replay_pass_runs s trig time_offset n _ Hnotes st Hlen)
      as (st1 & out1 & Hw1 & Hn1).
    destruct (IH (time_offset + sequence.get_length s) st1 Hn1)
      as (st2 & out2 & Hw2 & Hn2).
    exists st2, (out1 ++ out2). split; [| exact Hn2].
    eapply writes_bind; [exact Hw1 | exact Hw2].
Qed.

Lemma song_fill_seq_event_unfold s trig (prev_timestamp : Z) (bytes : list Z) :
  sequence.m_length s <> 0 ->
  song_fill_seq_event s trig prev_timestamp bytes
  = (st <- replay_passes s trig (pass_count (sequence.m_length s) trig)
             (first_time_offset (sequence.m_length s) trig)
             (prev_timestamp, replicate c_notes_count 0) ;;
     ret (fst st)) bytes.
Proof.
  intros Hlen.
  unfold song_fill_seq_event, pulse_rem, pulse_quot, sequence.get_length.
  destruct (Z.eqb_spec (sequence.m_length s) 0) as [Hz | _]; [contradiction |].
  reflexivity.
Qed.

Lemma song_fill_seq_event_runs s trig (prev_timestamp : Z) :
  sequence.m_length s <> 0 ->
  notes_below c_notes_count (sequence.m_events s) ->
  exists last out, writes (song_fill_seq_event s trig prev_timestamp) last out.
Proof.
  intros Hlen Hnotes.
  destruct (replay_passes_runs s trig c_notes_count
              (pass_count (sequence.m_length s) trig) Hnotes
              (first_time_offset (sequence.m_length s) trig)
              (prev_timestamp, replicate c_notes_count 0))
    as (st' & out & Hw & _).
  { cbn [snd]. apply length_replicate. }
  exists (fst st'), out. intros bytes.
  rewrite song_fill_seq_event_unfold by exact Hlen.
  unfold bind, ret. rewrite (Hw bytes). reflexivity.
Qed.

Lemma song_fill_triggers_runs s (trigs : list trigger.t) :
  sequence.m_length s <> 0 ->
  notes_below c_notes_count (sequence.m_events s) ->
  forall last_ts,
    exists last out, writes (song_fill_triggers s trigs last_ts) last out.
Proof.
  intros Hlen Hnotes.
  induction trigs as [| t trigs IH]; intros last_ts.
  - exists last_ts, []. apply writes_ret.
  - cbn [song_fill_triggers].
    destruct (song_fill_seq_event_runs s t last_ts Hlen Hnotes)
      as (mid & out1 & Hw1).
    destruct (IH mid) as (last & out2 & Hw2).
    exists last, (out1 ++ out2).
    eapply writes_bind; [exact Hw1 | exact Hw2].
Qed.

Lemma exportable_has_last s :
  sequence.is_exportable s = true ->
  exists ender, last (sequence.m_triggers s) = Some ender.
Proof.
  intros Hexp.
  unfold sequence.is_exportable, sequence.trigger_count in Hexp.
  destruct (sequence.m_triggers s) as [| t l] eqn:Htrigs.
  - cbn in Hexp. rewrite andb_false_r in Hexp. discriminate.
  - destruct (last (t :: l)) as [ender |] eqn:Hl; [eauto |].
    apply last_None in Hl. discriminate.
Qed.

Lemma song_fill_track_shape (cfg : settings) s (track : Z) (standalone : bool)
    (ender : trigger.t) (last_ts : Z) (replayed : list Z) :
  sequence.is_exportable s = true ->
  last (sequence.m_triggers s) = Some ender ->
  writes (song_fill_triggers s (sequence.m_triggers s) 0) last_ts replayed ->
  let seqend := snapped_end (trigger.tick_end ender)
                  (sequence.measures_to_ticks s 1) in
  forall bytes,
    song_fill_track cfg s track standalone bytes
    = Ok (true,
          (if standalone
           then [0; 0xFF; 0x00; 0x02; (track / 2 ^ 8) mod 256; track mod 256]
           else [])
          ++ ((if standalone
               then output (fill_seq_name (sequence.m_name s)) else [])
              ++ replayed
              ++ output (put_seqspec c_triggers_ex
                           (trigger_datasize c_triggers_ex))
              ++ long_bytes (to_ulong 0)
              ++ long_bytes (to_ulong (trigger.tick_end ender))
              ++ long_bytes (to_ulong 0)
              ++ output (fill_proprietary cfg s)
              ++ varinum_bytes (to_ulong (seqend - last_ts)))
          ++ [0xFF; 0x2F; 0x00]).
Proof.
  intros Hexp Hender Hreplay seqend.
  set (front := output (put_seqspec c_triggers_ex
                          (trigger_datasize c_triggers_ex))
                ++ long_bytes (to_ulong 0)
                ++ long_bytes (to_ulong (trigger.tick_end ender))
                ++ long_bytes (to_ulong 0)
                ++ output (fill_proprietary cfg s)
                ++ varinum_bytes (to_ulong (seqend - last_ts))).
  assert (Htrail : writes (song_fill_seq_trigger cfg s ender seqend last_ts)
                     tt (front ++ [0xFF; 0x2F; 0x00])).
  { eapply writes_out; [apply writes_song_fill_seq_trigger |].
    rewrite (varinum_bytes_small 0) by lia.
    subst front. rewrite <- !app_assoc. reflexivity. }
  set (name := if standalone
               then output (fill_seq_name (sequence.m_name s)) else []).
  set (number := if standalone
                 then [0; 0xFF; 0x00; 0x02; (track / 2 ^ 8) mod 256;
                       track mod 256]
                 else []).
  assert (Hhead : writes
                    (if standalone then
                       fill_seq_number track ;;
                       fill_seq_name (sequence.m_name s)
                     else ret tt) tt (number ++ name)).
  { subst number name. destruct standalone; [| apply writes_ret].
    eapply writes_bind;
      [apply seq_number_event_bytes | apply writes_fill_seq_name]. }
  assert (Hrest : writes
                    ((if standalone then
                        fill_seq_number track ;;
                        fill_seq_name (sequence.m_name s)
                      else ret tt) ;;
                     last_ts <- song_fill_triggers s (sequence.m_triggers s) 0 ;;
                     song_fill_seq_trigger cfg s ender seqend last_ts ;;
                     ret true) true
                    (number ++ (name ++ replayed ++ front)
                     ++ [0xFF; 0x2F; 0x00])).
  { eapply writes_out.
    - eapply writes_bind; [exact Hhead |].
      eapply writes_bind; [exact Hreplay |].
      eapply writes_bind; [exact Htrail | apply writes_ret].
    - rewrite app_nil_r, <- !app_assoc. reflexivity. }
  intros bytes.
  transitivity
    (((if standalone then
         fill_seq_number track ;; fill_seq_name (sequence.m_name s)
       else ret tt) ;;
      last_ts <- song_fill_triggers s (sequence.m_triggers s) 0 ;;
      song_fill_seq_trigger cfg s ender seqend last_ts ;;
      ret true) []).
  - unfold song_fill_track. rewrite Hexp.
    unfold sequence.get_triggers, sequence.name. rewrite Hender.
    reflexivity.
  - rewrite (Hrest []). reflexivity.
Qed.

(** X11: for an exportable pattern of a length other than zero whose note
    events have notes below [c_notes_count], [track::song_fill_track]
    runs to completion and returns true; the container then holds one
    track that does not depend on what the container held before, begins
    with the sequence-number event when standalone, and ends with the
    end-of-track event [FF 2F 00]. *)
Theorem song_fill_track_runs (cfg : settings) s (track : Z)
    (standalone : bool) :
  sequence.is_exportable s = true ->
  sequence.m_length s <> 0 ->
  notes_below c_notes_count (sequence.m_events s) ->
  exists body,
    forall bytes,
      song_fill_track cfg s track standalone bytes
      = Ok (true,
            (if standalone
             then [0; 0xFF; 0x00; 0x02; (track / 2 ^ 8) mod 256;
                   track mod 256]
             else [])
            ++ body ++ [0xFF; 0x2F; 0x00]).
Proof.
  intros Hexp Hlen Hnotes.
  destruct (song_fill_triggers_runs s (sequence.m_triggers s) Hlen Hnotes 0)
    as (last_ts & replayed & Hreplay).
  destruct (exportable_has_last s Hexp) as [ender Hender].
  eexists. intros bytes.
  apply (song_fill_track_shape cfg s track standalone ender last_ts replayed
           Hexp Hender Hreplay).
Qed.

Lemma replay_passes_no_events s trig (passes : nat) :
  sequence.m_events s = [] ->
  forall (time_offset : Z) st,
    writes (replay_passes s trig passes time_offset st) st [].
Proof.
  intros Hnone.
  induction passes as [| passes IH]; intros time_offset st.
  - apply writes_ret.
  - cbn [replay_passes]. unfold sequence.events. rewrite Hnone.
    cbn [replay_pass].
    apply (writes_bind _ _ st st [] []); [apply writes_ret | apply IH].
Qed.

(** X12: for a pattern without events, of a length other than zero,
    [track::song_fill_seq_event] writes nothing and returns the previous
    time-stamp as it got it, whatever the trigger and the number of
    passes. *)
Theorem song_fill_seq_event_no_events s trig (prev_timestamp : Z) :
  sequence.m_events s = [] ->
  sequence.m_length s <> 0 ->
  writes (song_fill_seq_event s trig prev_timestamp) prev_timestamp [].
Proof.
  intros Hnone Hlen bytes.
  rewrite song_fill_seq_event_unfold by exact Hlen.
  unfold bind, ret.
  rewrite (replay_passes_no_events s trig _ Hnone _ _ bytes).
  reflexivity.
Qed.

End SongRuns.

(** ** The times of a regular export *)

Section FillTimes.

Context {event : Type} `{Platform} `{EventApi event}.

Implicit Type s : sequence.t event.
Implicit Type e : event.

Lemma total_delta_last (evl : list event) :
  forall prev,
    prev + total_delta (exported_events evl prev) = last_timestamp evl prev.
Proof.
  induction evl as [| e rest IH]; intros prev;
    cbn [exported_events last_timestamp total_delta fold_right].
  - lia.
  - destruct (timestamp e - prev <? 0).
    + cbn [total_delta fold_right]. lia.
    + cbn [total_delta fold_right snd].
      fold (total_delta (exported_events rest (timestamp e))).
      specialize (IH (timestamp e)). lia.
Qed.

Lemma last_timestamp_ge (evl : list event) :
  forall prev, prev <= last_timestamp evl prev.
Proof.
  induction evl as [| e rest IH]; intros prev; cbn [last_timestamp]; [lia |].
  destruct (Z.ltb_spec (timestamp e - prev) 0); [lia |].
  specialize (IH (timestamp e)). lia.
Qed.

(** X13: in the track that [track::fill] writes, the delta times of the
    events are not negative and add up to the time-stamp of the last event
    written; the delta time of the end-of-track event is not negative
    either, and all delta times together give the pattern length, or the
    last time-stamp when that lies beyond the length. *)
Theorem fill_track_duration (cfg : settings) s (track : Z) (doseqspec : bool) :
  let evl := sort (sequence.m_events s) in
  let written := exported_events evl 0 in
  let last := last_timestamp evl 0 in
  let end_delta :=
    if sequence.m_length s <? last then 0 else sequence.m_length s - last in
  (exists head middle,
     writes (fill cfg s track doseqspec) (bad_delta evl 0)
       (head ++ events_bytes s written ++ middle
        ++ varinum_bytes (to_ulong end_delta) ++ [0xFF; 0x2F; 0x00]))
  /\ Forall (fun ed => 0 <= snd ed) written
  /\ total_delta written = last
  /\ 0 <= end_delta
  /\ total_delta written + end_delta = Z.max (sequence.m_length s) last.
Proof.
  intros evl written last end_delta.
  pose proof (total_delta_last evl 0) as Hsum.
  pose proof (last_timestamp_ge evl 0) as Hge.
  fold written in Hsum. fold last in Hsum, Hge.
  split; [| split; [apply exported_deltas_nonneg |]].
  - pose proof (writes_fill cfg s track doseqspec) as Hfill.
    cbv zeta in Hfill. fold evl in Hfill. fold last in Hfill.
    fold end_delta in Hfill. fold written in Hfill.
    rewrite track_end_bytes in Hfill.
    exists ((if doseqspec then output (fill_seq_number track) else [])
            ++ output (fill_seq_name (sequence.m_name s))),
      (if doseqspec then output (fill_seqspec cfg s) else []).
    eapply writes_out; [exact Hfill |].
    rewrite <- !app_assoc. reflexivity.
  - subst end_delta.
    destruct (Z.ltb_spec (sequence.m_length s) last); repeat split; lia.
Qed.

Lemma ordered_exports_all (evl : list event) :
  forall prev,
    bad_delta evl prev = negb (ordered_from prev evl)
    /\ (ordered_from prev evl = true ->
        exported_events evl prev = with_deltas prev evl).
Proof.
  induction evl as [| e rest IH]; intros prev;
    cbn [bad_delta ordered_from exported_events with_deltas].
  - auto.
  - destruct (IH (timestamp e)) as (Hbad & Hall).
    destruct (Z.ltb_spec (timestamp e - prev) 0) as [Hneg | Hpos];
      destruct (Z.leb_spec prev (timestamp e)) as [Hle | Hgt];
      cbn [andb negb]; try (exfalso; lia).
    + split; [reflexivity | discriminate].
    + split; [exact Hbad |].
      intros Hord. rewrite (Hall Hord). reflexivity.
Qed.

(** X14: [track::fill] prints its diagnostic exactly when the time-stamps
    of the sorted events go down somewhere, counted from tick 0; when they
    never do, every event of the pattern is written, each with its
    distance to the event before it as delta time. *)
Theorem fill_ordered_events (cfg : settings) s (track : Z) (doseqspec : bool) :
  let evl := sort (sequence.m_events s) in
  (exists head tail,
     writes (fill cfg s track doseqspec) (negb (ordered_from 0 evl))
       (head ++ events_bytes s (exported_events evl 0) ++ tail))
  /\ (ordered_from 0 evl = true ->
      exported_events evl 0 = with_deltas 0 evl
      /\ map fst (exported_events evl 0) = evl).
Proof.
  intros evl.
  destruct (ordered_exports_all evl 0) as (Hbad & Hall).
  split.
  - pose proof (writes_fill cfg s track doseqspec) as Hfill.
    cbv zeta in Hfill. fold evl in Hfill. rewrite Hbad in Hfill.
    eexists ((if doseqspec then output (fill_seq_number track) else [])
             ++ output (fill_seq_name (sequence.m_name s))).
    eexists.
    eapply writes_out; [exact Hfill |].
    rewrite <- !app_assoc. reflexivity.
  - intros Hord. split; [apply Hall; exact Hord |].
    destruct (exported_events_prefix evl 0) as (rest & Heq & Hrest & _).
    rewrite Hbad, Hord in Hrest. cbn [negb] in Hrest.
    destruct rest as [| e rest].
    + rewrite app_nil_r in Heq. symmetry. exact Heq.
    + destruct Hrest as [_ Hrest]. discriminate (Hrest ltac:(discriminate)).
Qed.

End FillTimes.

(** ** The guarded remainder of [sequence.hpp] *)

Section LastTick.

Context {event : Type}.

(** X15: [sequence::mod_last_tick] never divides by zero: for a length of
    at most one it returns the last tick as it is, and for a longer
    pattern and a last tick that is not negative it returns the position
    of that tick within the pattern, between zero and the length. *)
Theorem mod_last_tick_range (s : sequence.t event) :
  (sequence.m_length s <= 1 ->
   sequence.mod_last_tick s = sequence.m_last_tick s)
  /\ (1 < sequence.m_length s -> 0 <= sequence.m_last_tick s ->
      0 <= sequence.mod_last_tick s < sequence.m_length s
      /\ sequence.mod_last_tick s
         = sequence.m_last_tick s mod sequence.m_length s).
Proof.
  unfold sequence.mod_last_tick.
  destruct (Z.gtb_spec (sequence.m_length s) 1) as [Hgt | Hle]; split;
    try lia; try reflexivity.
  intros _ Hpos. rewrite Z.rem_mod_nonneg by lia.
  split; [apply Z.mod_pos_bound; lia | reflexivity].
Qed.

End LastTick.

(** ** Delta times of a song export *)

Section SongDeltas.

Context {event : Type} `{Platform} `{EventApi event}.

Implicit Type s : sequence.t event.
Implicit Type e : event.
Implicit Type trig : trigger.t.

Lemma replay_pass_trace s trig (time_offset : Z) (evs : list event) :
  forall st written st',
    replay_trace trig time_offset evs st = Ok (written, st') ->
    writes (replay_pass s trig time_offset evs st) st' (events_bytes s written).
Proof.
  induction evs as [| e rest IH]; intros [prev used] written st' Htrace.
  - injection Htrace as <- <-. apply writes_ret.
  - cbn [replay_trace replay_pass fst snd] in *.
    destruct (replay_event trig time_offset used e) as [[used' r] | f];
      [| discriminate Htrace].
    destruct r as [[e' ts] |].
    + destruct (replay_trace trig time_offset rest (ts, used'))
        as [[tail st1] |] eqn:Hrest; [| discriminate Htrace].
      injection Htrace as <- <-.
      unfold events_bytes. cbn [map concat fst snd].
      eapply writes_bind; [apply writes_add_event |].
      apply IH. exact Hrest.
    + apply IH. exact Htrace.
Qed.

Lemma replay_passes_trace s trig (passes : nat) :
  forall (time_offset : Z) st written st',
    replay_traces trig (sequence.m_length s) (sequence.m_events s) passes
      time_offset st = Ok (written, st') ->
    writes (replay_passes s trig passes time_offset st) st'
      (events_bytes s written).
Proof.
  induction passes as [| passes IH]; intros time_offset st written st' Htrace.
  - injection Htrace as <- <-. apply writes_ret.
  - cbn [replay_traces replay_passes] in *.
    destruct (replay_trace trig time_offset (sequence.m_events s) st)
      as [[w1 st1] |] eqn:H1; [| discriminate Htrace].
    destruct (replay_traces trig (sequence.m_length s) (sequence.m_events s)
                passes (time_offset + sequence.m_length s) st1)
      as [[w2 st2] |] eqn:H2; [| discriminate Htrace].
    injection Htrace as <- <-.
    unfold events_bytes. rewrite map_app, concat_app.
    eapply writes_bind.
    + apply replay_pass_trace. exact H1.
    + apply IH. exact H2.
Qed.

Lemma replay_trace_runs trig (time_offset : Z) (n : nat) (evs : list event) :
  notes_below n evs ->
  forall st, List.length (snd st) = n ->
    exists written st',
      replay_trace trig time_offset evs st = Ok (written, st')
      /\ List.length (snd st') = n.
Proof.
  induction 1 as [| e evs He _ IH]; intros [prev used] Hlen.
  - exists [], (prev, used). auto.
  - cbn [snd] in Hlen. cbn [replay_trace fst snd].
    destruct (replay_event_runs trig time_offset used e) as (used' & r & Hrun).
    { rewrite Hlen. exact He. }
    rewrite Hrun.
    pose proof (replay_table_facts trig time_offset used used' e r Hrun)
      as (Hlen' & _).
    destruct r as [[e' ts'] |].
    + destruct (IH (ts', used')) as (w & st' & Hw & Hn); [cbn [snd]; lia |].
      rewrite Hw. eauto.
    + destruct (IH (prev, used')) as (w & st' & Hw & Hn); [cbn [snd]; lia |].
      eauto.
Qed.

Lemma replay_traces_runs trig (len : Z) (n passes : nat) (evs : list event) :
  notes_below n evs ->
  forall (time_offset : Z) st, List.length (snd st) = n ->
    exists written st',
      replay_traces trig len evs passes time_offset st = Ok (written, st')
      /\ List.length (snd st') = n.
Proof.
  intros Hnotes.
  induction passes as [| passes IH]; intros time_offset st Hlen.
  - exists [], st. auto.
  - cbn [replay_traces].
    destruct (replay_trace_runs trig time_offset n evs Hnotes st Hlen)
      as (w1 & st1 & H1 & Hn1).
    rewrite H1.
    destruct (IH (time_offset + len) st1 Hn1) as (w2 & st2 & H2 & Hn2).
    rewrite H2. eauto.
Qed.

(** A written note on, note off or other event is written at the earlier
    of its own tick and the end of the trigger, and not before the start
    of the trigger. *)
Lemma replay_event_clipped trig (time_offset : Z) (used used' : list Z)
    e e' (ts' : Z) :
  (is_note e = true ->
   is_note_on (transposed_copy trig e) = true
   \/ is_note_off (transposed_copy trig e) = true) ->
  replay_event trig time_offset used e = Ok (used', Some (e', ts')) ->
  trigger.tick_start trig <= timestamp e + time_offset
  /\ ts' = Z.min (timestamp e + time_offset) (trigger.tick_end trig).
Proof.
  intros Hplain Hrun.
  destruct (replay_window_facts _ _ _ _ _ _ _ Hrun)
    as (Hstart & Hother & Hnote & _).
  split; [exact Hstart |].
  destruct (is_note e) eqn:Hn.
  - destruct (Hnote eq_refl) as (-> & Hon & Hoff & _).
    fold (transposed_copy trig e) in *.
    destruct (is_note_on (transposed_copy trig e)) eqn:Eon.
    + destruct (Hon eq_refl) as (-> & Hle). lia.
    + destruct (Hplain eq_refl) as [Hc | Hc]; [discriminate Hc |].
      apply Hoff; [reflexivity | exact Hc].
  - destruct (Hother eq_refl) as (_ & -> & Hlt). lia.
Qed.

Lemma replay_trace_deltas trig (time_offset hi : Z) (evs : list event) :
  plain_notes trig evs ->
  Forall (fun e => timestamp e <= hi) evs ->
  forall (lo : Z) st written st',
    ordered_from lo evs = true ->
    lo <= hi ->
    fst st <= Z.min (Z.max (lo + time_offset) (trigger.tick_start trig))
                (trigger.tick_end trig) ->
    replay_trace trig time_offset evs st = Ok (written, st') ->
    Forall (fun ed => 0 <= snd ed) written
    /\ fst st <= fst st'
    /\ fst st' <= Z.min (Z.max (hi + time_offset) (trigger.tick_start trig))
                    (trigger.tick_end trig).
Proof.
  intros Hplain Hhi. revert Hplain.
  induction Hhi as [| e rest He _ IH];
    intros Hplain lo [prev used] written st' Hord Hlo Hprev Htrace.
  - injection Htrace as <- <-. cbn [fst] in *.
    split; [constructor | split; lia].
  - inversion Hplain as [| ? ? Hpe Hprest]; subst.
    cbn [ordered_from] in Hord. apply andb_prop in Hord as (Hle & Hord).
    apply Z.leb_le in Hle.
    cbn [replay_trace fst snd] in *.
    destruct (replay_event trig time_offset used e) as [[used' r] | f] eqn:Hrun;
      [| discriminate Htrace].
    destruct r as [[e' ts'] |].
    + destruct (replay_event_clipped _ _ _ _ _ _ _ Hpe Hrun) as (Hstart & ->).
      destruct (replay_trace trig time_offset rest
                  (Z.min (timestamp e + time_offset) (trigger.tick_end trig),
                   used'))
        as [[tail st1] |] eqn:Hrest; [| discriminate Htrace].
      injection Htrace as <- <-.
      assert (Hinv : fst (Z.min (timestamp e + time_offset)
                            (trigger.tick_end trig), used')
                     <= Z.min (Z.max (timestamp e + time_offset)
                                 (trigger.tick_start trig))
                          (trigger.tick_end trig))
        by (cbn [fst]; lia).
      destruct (IH Hprest (timestamp e) _ _ _ Hord He Hinv Hrest)
        as (Htail & Hmono & Hend).
      cbn [fst] in Hmono.
      split; [constructor; [cbn [snd]; lia | exact Htail] |].
      split; [lia | exact Hend].
    + assert (Hinv : fst (prev, used')
                     <= Z.min (Z.max (timestamp e + time_offset)
                                 (trigger.tick_start trig))
                          (trigger.tick_end trig))
        by (cbn [fst]; lia).
      destruct (IH Hprest (timestamp e) _ _ _ Hord He Hinv Htrace)
        as (Htail & Hmono & Hend).
      cbn [fst] in Hmono. auto.
Qed.

Lemma replay_traces_deltas trig (len : Z) (evs : list event) (passes : nat) :
  plain_notes trig evs ->
  Forall (fun e => timestamp e <= len) evs ->
  ordered_from 0 evs = true ->
  0 <= len ->
  forall (time_offset : Z) st written st',
    fst st <= Z.min (Z.max time_offset (trigger.tick_start trig))
                (trigger.tick_end trig) ->
    replay_traces trig len evs passes time_offset st = Ok (written, st') ->
    Forall (fun ed => 0 <= snd ed) written
    /\ fst st <= fst st'
    /\ fst st' <= trigger.tick_end trig.
Proof.
  intros Hplain Hhi Hord Hlen.
  induction passes as [| passes IH];
    intros time_offset st written st' Hprev Htrace.
  - injection Htrace as <- <-. split; [constructor | split; lia].
  - cbn [replay_traces] in Htrace.
    destruct (replay_trace trig time_offset evs st) as [[w1 st1] |] eqn:H1;
      [| discriminate Htrace].
    destruct (replay_traces trig len evs passes (time_offset + len) st1)
      as [[w2 st2] |] eqn:H2; [| discriminate Htrace].
    injection Htrace as <- <-.
    rewrite <- (Z.add_0_l time_offset) in Hprev.
    destruct (replay_trace_deltas trig time_offset len evs Hplain Hhi 0
                st w1 st1 Hord Hlen Hprev H1)
      as (Hw1 & Hm1 & He1).
    rewrite (Z.add_comm len time_offset) in He1.
    destruct (IH (time_offset + len) st1 w2 st2 He1 H2)
      as (Hw2 & Hm2 & He2).
    split; [apply Forall_app; auto | split; lia].
Qed.

Lemma events_bytes_app s (w1 w2 : list (event * Z)) :
  events_bytes s (w1 ++ w2) = events_bytes s w1 ++ events_bytes s w2.
Proof. unfold events_bytes. rewrite map_app, concat_app. reflexivity. Qed.

Lemma song_fill_seq_event_trace s trig (prev_timestamp : Z) :
  0 < sequence.m_length s ->
  notes_below c_notes_count (sequence.m_events s) ->
  plain_notes trig (sequence.m_events s) ->
  ordered_from 0 (sequence.m_events s) = true ->
  Forall (fun e => timestamp e <= sequence.m_length s) (sequence.m_events s) ->
  trigger.tick_start trig <= trigger.tick_end trig ->
  prev_timestamp <= trigger.tick_start trig ->
  exists written st',
    replay_traces trig (sequence.m_length s) (sequence.m_events s)
      (pass_count (sequence.m_length s) trig)
      (first_time_offset (sequence.m_length s) trig)
      (prev_timestamp, replicate c_notes_count 0)
    = Ok (written, st')
    /\ writes (song_fill_seq_event s trig prev_timestamp) (fst st')
         (events_bytes s written)
    /\ Forall (fun ed => 0 <= snd ed) written
    /\ prev_timestamp <= fst st' <= trigger.tick_end trig.
Proof.
  intros Hlen Hnotes Hplain Hord Hhi Hspan Hprev.
  set (st := (prev_timestamp, replicate c_notes_count 0)).
  destruct (replay_traces_runs trig (sequence.m_length s) c_notes_count
              (pass_count (sequence.m_length s) trig) (sequence.m_events s)
              Hnotes (first_time_offset (sequence.m_length s) trig) st)
    as (written & st' & Htrace & _).
  { subst st. cbn [snd]. apply length_replicate. }
  assert (Hinv : fst st
                 <= Z.min (Z.max (first_time_offset (sequence.m_length s) trig)
                             (trigger.tick_start trig))
                      (trigger.tick_end trig))
    by (subst st; cbn [fst]; lia).
  destruct (replay_traces_deltas trig (sequence.m_length s)
              (sequence.m_events s) _ Hplain Hhi Hord ltac:(lia)
              _ st written st' Hinv Htrace)
    as (Hdeltas & Hmono & Hend).
  pose proof (replay_passes_trace s trig _ _ st written st' Htrace) as Hwr.
  subst st. cbn [fst] in Hmono.
  exists written, st'.
  split; [exact Htrace |].
  split; [| split; [exact Hdeltas | lia]].
  intros bytes. rewrite song_fill_seq_event_unfold by lia.
  unfold bind, ret. rewrite (Hwr bytes). reflexivity.
Qed.

(** X16: for a pattern of positive length whose events are in time order
    within the pattern and whose notes are note on or note off, and a
    trigger that does not end before it starts and does not start before
    the previous time-stamp, [track::song_fill_seq_event] runs to
    completion, every delta time it hands to [add_event] is zero or more,
    and the time-stamp it returns lies between the previous one and the
    end of the trigger. *)
Theorem song_fill_seq_event_deltas s trig (prev_timestamp : Z) :
  0 < sequence.m_length s ->
  notes_below c_notes_count (sequence.m_events s) ->
  plain_notes trig (sequence.m_events s) ->
  ordered_from 0 (sequence.m_events s) = true ->
  Forall (fun e => timestamp e <= sequence.m_length s) (sequence.m_events s) ->
  trigger.tick_start trig <= trigger.tick_end trig ->
  prev_timestamp <= trigger.tick_start trig ->
  exists written st',
    replay_traces trig (sequence.m_length s) (sequence.m_events s)
      (pass_count (sequence.m_length s) trig)
      (first_time_offset (sequence.m_length s) trig)
      (prev_timestamp, replicate c_notes_count 0)
    = Ok (written, st')
    /\ writes (song_fill_seq_event s trig prev_timestamp) (fst st')
         (events_bytes s written)
    /\ Forall (fun ed => 0 <= snd ed) written
    /\ prev_timestamp <= fst st' <= trigger.tick_end trig.
Proof. apply song_fill_seq_event_trace. Qed.

Lemma song_fill_triggers_trace s (trigs : list trigger.t) :
  0 < sequence.m_length s ->
  notes_below c_notes_count (sequence.m_events s) ->
  Forall (fun trig => plain_notes trig (sequence.m_events s)) trigs ->
  ordered_from 0 (sequence.m_events s) = true ->
  Forall (fun e => timestamp e <= sequence.m_length s) (sequence.m_events s) ->
  forall lo last_ts,
    last_ts <= lo ->
    triggers_in_order lo trigs = true ->
    exists written final,
      song_trace s trigs last_ts = Ok (written, final)
      /\ writes (song_fill_triggers s trigs last_ts) final
           (events_bytes s written)
      /\ Forall (fun ed => 0 <= snd ed) written
      /\ last_ts <= final
      /\ final <= match last trigs with
                  | Some ender => trigger.tick_end ender
                  | None => last_ts
                  end.
Proof.
  intros Hlen Hnotes Hplain Hord Hhi.
  induction Hplain as [| t trigs Ht _ IH]; intros lo last_ts Hlo Horder.
  - exists [], last_ts. split; [reflexivity |]. split; [apply writes_ret |].
    split; [constructor | cbn; lia].
  - cbn [triggers_in_order] in Horder.
    apply andb_prop in Horder as (Horder & Hrest).
    apply andb_prop in Horder as (Hstart & Hspan).
    apply Z.leb_le in Hstart. apply Z.leb_le in Hspan.
    destruct (song_fill_seq_event_trace s t last_ts Hlen Hnotes Ht Hord Hhi
                Hspan ltac:(lia))
      as (w1 & [mid used1] & Ht1 & Hw1 & Hd1 & Hm1).
    cbn [fst] in Hw1, Hm1.
    destruct (IH (trigger.tick_end t) mid ltac:(lia) Hrest)
      as (w2 & final & Ht2 & Hw2 & Hd2 & Hm2 & Hf2).
    exists (w1 ++ w2), final.
    split.
    { cbn [song_trace]. rewrite Ht1. cbn [fst]. rewrite Ht2. reflexivity. }
    split.
    { rewrite events_bytes_app. cbn [song_fill_triggers].
      eapply writes_bind; [exact Hw1 | exact Hw2]. }
    split; [apply Forall_app; auto |].
    split; [lia |].
    destruct trigs as [| t' trigs'].
    + cbn in Hf2 |- *. lia.
    + change (last (t :: t' :: trigs')) with (last (t' :: trigs')).
      destruct (last (t' :: trigs')) as [ender |] eqn:Hl; [exact Hf2 |].
      apply last_None in Hl. discriminate Hl.
Qed.

Lemma total_delta_app (w1 w2 : list (event * Z)) :
  total_delta (w1 ++ w2) = total_delta w1 + total_delta w2.
Proof.
  induction w1 as [| ed w1 IH]; [reflexivity |].
  cbn [app total_delta fold_right] in *.
  fold (total_delta (w1 ++ w2)). fold (total_delta w1). lia.
Qed.

Lemma replay_trace_total trig (time_offset : Z) (evs : list event) :
  forall st written st',
    replay_trace trig time_offset evs st = Ok (written, st') ->
    fst st + total_delta written = fst st'.
Proof.
  induction evs as [| e rest IH]; intros [prev used] written st' Htrace.
  - injection Htrace as <- <-. cbn. lia.
  - cbn [replay_trace fst snd] in *.
    destruct (replay_event trig time_offset used e) as [[used' r] | f];
      [| discriminate Htrace].
    destruct r as [[e' ts'] |].
    + destruct (replay_trace trig time_offset rest (ts', used'))
        as [[tail st1] |] eqn:Hrest; [| discriminate Htrace].
      injection Htrace as <- <-.
      specialize (IH _ _ _ Hrest). cbn [fst] in IH.
      cbn [total_delta fold_right snd]. fold (total_delta tail). lia.
    + specialize (IH _ _ _ Htrace). cbn [fst] in IH. exact IH.
Qed.

Lemma replay_traces_total trig (len : Z) (evs : list event) (passes : nat) :
  forall (time_offset : Z) st written st',
    replay_traces trig len evs passes time_offset st = Ok (written, st') ->
    fst st + total_delta written = fst st'.
Proof.
  induction passes as [| passes IH]; intros time_offset st written st' Htrace.
  - injection Htrace as <- <-. cbn. lia.
  - cbn [replay_traces] in Htrace.
    destruct (replay_trace trig time_offset evs st) as [[w1 st1] |] eqn:Hone;
      [| discriminate Htrace].
    destruct (replay_traces trig len evs passes (time_offset + len) st1)
      as [[w2 st2] |] eqn:Hrest; [| discriminate Htrace].
    injection Htrace as <- <-.
    apply replay_trace_total in Hone. apply IH in Hrest.
    rewrite total_delta_app. lia.
Qed.

Lemma song_trace_total s (trigs : list trigger.t) :
  forall (last_ts : Z) written final,
    song_trace s trigs last_ts = Ok (written, final) ->
    last_ts + total_delta written = final.
Proof.
  induction trigs as [| t rest IH]; intros last_ts written final Htrace.
  - injection Htrace as <- <-. cbn. lia.
  - cbn [song_trace] in Htrace.
    destruct (replay_traces t (sequence.m_length s) (sequence.m_events s)
                (pass_count (sequence.m_length s) t)
                (first_time_offset (sequence.m_length s) t)
                (last_ts, replicate c_notes_count 0))
      as [[w1 st1] |] eqn:Hone; [| discriminate Htrace].
    destruct (song_trace s rest (fst st1)) as [[w2 final2] |] eqn:Hrest;
      [| discriminate Htrace].
    injection Htrace as <- <-.
    apply replay_traces_total in Hone. apply IH in Hrest.
    cbn [fst] in Hone. rewrite total_delta_app. lia.
Qed.

(** X17: for an exportable pattern of positive length whose events are in
    time order within the pattern and whose notes are note on or note off,
    and triggers that follow one another from tick 0 without overlap, no
    delta time in the track that [track::song_fill_track] writes is
    negative: not those of the replayed events and not that of the
    end-of-track event.  All delta times together give the end of the last
    trigger, moved to the last tick of its measure. *)
Theorem song_fill_track_deltas (cfg : settings) s (track : Z)
    (standalone : bool) :
  sequence.is_exportable s = true ->
  0 < sequence.m_length s ->
  notes_below c_notes_count (sequence.m_events s) ->
  Forall (fun trig => plain_notes trig (sequence.m_events s))
    (sequence.m_triggers s) ->
  ordered_from 0 (sequence.m_events s) = true ->
  Forall (fun e => timestamp e <= sequence.m_length s) (sequence.m_events s) ->
  triggers_in_order 0 (sequence.m_triggers s) = true ->
  exists head written last_ts middle ender end_delta,
    song_trace s (sequence.m_triggers s) 0 = Ok (written, last_ts)
    /\ last (sequence.m_triggers s) = Some ender
    /\ (forall bytes,
          song_fill_track cfg s track standalone bytes
          = Ok (true,
                head ++ events_bytes s written ++ middle
                ++ varinum_bytes (to_ulong end_delta) ++ [0xFF; 0x2F; 0x00]))
    /\ Forall (fun ed => 0 <= snd ed) written
    /\ 0 <= end_delta
    /\ total_delta written + end_delta
       = snapped_end (trigger.tick_end ender)
           (sequence.measures_to_ticks s 1).
Proof.
  intros Hexp Hlen Hnotes Hplain Hord Hhi Horder.
  destruct (exportable_has_last s Hexp) as [ender Hender].
  destruct (song_fill_triggers_trace s (sequence.m_triggers s) Hlen Hnotes
              Hplain Hord Hhi 0 0 ltac:(lia) Horder)
    as (written & last_ts & Htrace & Hw & Hdeltas & _ & Hfinal).
  rewrite Hender in Hfinal.
  set (seqend := snapped_end (trigger.tick_end ender)
                   (sequence.measures_to_ticks s 1)).
  assert (Hsnap : trigger.tick_end ender <= seqend).
  { subst seqend.
    destruct (Z.lt_ge_cases 0 (sequence.measures_to_ticks s 1)) as [Hpos | Hnp].
    - apply (snapped_end_spec (trigger.tick_end ender)
               (sequence.measures_to_ticks s 1) Hpos).
    - unfold snapped_end.
      destruct (Z.gtb_spec (sequence.measures_to_ticks s 1) 0); lia. }
  exists ((if standalone
           then [0; 0xFF; 0x00; 0x02; (track / 2 ^ 8) mod 256; track mod 256]
           else [])
          ++ (if standalone
              then output (fill_seq_name (sequence.m_name s)) else [])),
    written, last_ts,
    (output (put_seqspec c_triggers_ex (trigger_datasize c_triggers_ex))
     ++ long_bytes (to_ulong 0)
     ++ long_bytes (to_ulong (trigger.tick_end ender))
     ++ long_bytes (to_ulong 0)
     ++ output (fill_proprietary cfg s)),
    ender, (seqend - last_ts).
  pose proof (song_trace_total s _ _ _ _ Htrace) as Hsum.
  split; [exact Htrace |].
  split; [exact Hender |].
  split; [| split; [exact Hdeltas | split; lia]].
  intros bytes.
  rewrite (song_fill_track_shape cfg s track standalone ender last_ts
             (events_bytes s written) Hexp Hender Hw bytes).
  fold seqend. rewrite <- !app_assoc. reflexivity.
Qed.

End SongDeltas.
(** * The exporter on concrete patterns *)

Import seq66.

Lemma add_varinum_roundtrip_witness :
  0 <= 300 < 2 ^ 28 /\
  forall rest,
    decode_varint (varinum_bytes 300 ++ rest)
    = Some (300, rest).
Proof.
  split; [lia |].
  destruct (add_varinum_roundtrip 300 ltac:(lia)) as (_ & _ & _ & _ & Hdec & _).
  exact Hdec.
Defined.

Example varinum_300 : varinum_bytes 300 = [0x82; 0x2C].
Proof. reflexivity. Qed.

Lemma add_event_channel_policy_witness :
  add_event (pattern [] [])
    (make_event 0 0xFF 0x51 0 0 [7; 161; 32]) 0
  = add_ex_event (make_event 0 0xFF 0x51 0 0 [7; 161; 32]) 0.
Proof.
  apply (add_event_channel_policy (pattern [] [])
           (make_event 0 0xFF 0x51 0 0 [7; 161; 32]) 0).
  reflexivity.
Defined.

(** A note on channel 3 written for a pattern on channel 5, and for a
    free-channel pattern; a tempo event keeps its status. *)
Example add_event_fixed_channel :
  add_event
    (sequence.make [] [] String.EmptyString 192 0 false false 5 0 4 4 192 0 0
       0x800 true (-1) 0)
    (make_event 0 0x90 3 60 100 []) 10 []
  = Ok (tt, [10; 0x95; 60; 100]).
Proof. reflexivity. Qed.

Example add_event_free_channel :
  add_event
    (sequence.make [] [] String.EmptyString 192 0 false true 5 0 4 4 192 0 0
       0x800 true (-1) 0)
    (make_event 0 0x90 3 60 100 []) 10 []
  = Ok (tt, [10; 0x93; 60; 100]).
Proof. reflexivity. Qed.

Example add_event_meta :
  add_event
    (sequence.make [] [] String.EmptyString 192 0 false false 5 0 4 4 192 0 0
       0x800 true (-1) 0)
    (make_event 0 0xFF 0x51 0 0 [7; 161; 32]) 0 []
  = Ok (tt, [0; 0xFF; 0x51; 3; 7; 161; 32]).
Proof. reflexivity. Qed.

(** With default metadata the buss, time-signature, channel and
    transposable blocks are still written. *)
Lemma fill_proprietary_default_blocks :
  fill_proprietary settings0 (pattern [] []) []
  = Ok (tt,
        [0; 0xFF; 0x7F; 5; 0x24; 0x24; 0x00; 0x01; 0]
        ++ [0; 0xFF; 0x7F; 6; 0x24; 0x24; 0x00; 0x06; 4; 4]
        ++ [0; 0xFF; 0x7F; 5; 0x24; 0x24; 0x00; 0x02; 0]
        ++ [0; 0xFF; 0x7F; 5; 0x24; 0x24; 0x00; 0x14; 1])
  /\ seqspec_block c_midibus [0] = [0; 0xFF; 0x7F; 5; 0x24; 0x24; 0x00; 0x01; 0]
  /\ seqspec_block c_timesig [4; 4]
     = [0; 0xFF; 0x7F; 6; 0x24; 0x24; 0x00; 0x06; 4; 4]
  /\ seqspec_block c_midichannel [0]
     = [0; 0xFF; 0x7F; 5; 0x24; 0x24; 0x00; 0x02; 0]
  /\ output (fill_proprietary settings0 (pattern [] [])) <> [].
Proof. repeat split. discriminate. Qed.

Lemma song_fill_track_not_exportable_witness :
  song_fill_track settings0 (pattern [note_on 0 60; note_off 96 60] []) 0 true
    [1; 2; 3]
  = Ok (false, [1; 2; 3]).
Proof.
  apply (song_fill_track_not_exportable settings0
           (pattern [note_on 0 60; note_off 96 60] []) 0 true [1; 2; 3]).
  right. reflexivity.
Defined.

(** C10: one trigger ending at tick 100 and a measure of 768 ticks.  The
    end moved to the last tick of the measure is 767, and the delta time
    of the end of the track is taken from it ([0x85 0x7F] is 767); the one
    trigger of the exported track ends at tick 100 ([00 00 00 64]), not at
    the moved end ([00 00 02 FF]) that the banner of
    [track::song_fill_track] announces for it. *)
Theorem flattened_trigger_keeps_end :
  snapped_end 100 (sequence.measures_to_ticks (pattern [] [trigger.make 0 100 0 0]) 1)
  = 767
  /\ song_fill_track settings0 (pattern [] [trigger.make 0 100 0 0]) 0 false []
     = Ok (true,
           [0; 0xFF; 0x7F; 16; 0x24; 0x24; 0x00; 0x08]
           ++ [0; 0; 0; 0] ++ [0; 0; 0; 100] ++ [0; 0; 0; 0]
           ++ [0; 0xFF; 0x7F; 5; 0x24; 0x24; 0x00; 0x01; 0]
           ++ [0; 0xFF; 0x7F; 6; 0x24; 0x24; 0x00; 0x06; 4; 4]
           ++ [0; 0xFF; 0x7F; 5; 0x24; 0x24; 0x00; 0x02; 0]
           ++ [0; 0xFF; 0x7F; 5; 0x24; 0x24; 0x00; 0x14; 1]
           ++ [0x85; 0x7F; 0xFF; 0x2F; 0])
  /\ long_bytes 100 = [0; 0; 0; 100]
  /\ long_bytes 767 = [0; 0; 2; 255]
  /\ long_bytes 100 <> long_bytes 767.
Proof. repeat split. discriminate. Qed.

Lemma song_fill_track_end_witness :
  snapped_end 100 768 mod 768 = 767 /\ 100 <= snapped_end 100 768.
Proof.
  pose proof (song_fill_track_end settings0
                (pattern [] [trigger.make 0 100 0 0]) 0 false
                (trigger.make 0 100 0 0) eq_refl eq_refl eq_refl)
    as (Hmod & Hle & _).
  split; [exact Hmod | exact Hle].
Defined.

(** The two-note pattern of 192 ticks under the trigger from 100 to 300
    with offset 50. *)
Lemma song_fill_seq_event_passes_witness :
  0 < sequence.m_length two_notes
  /\ song_fill_seq_event two_notes trigger_100_300 0 []
     = (st <- replay_at_offsets two_notes trigger_100_300 [50; 242; 434]
                (0, replicate 128 0) ;;
        ret (fst st)) [].
Proof.
  split; [reflexivity |].
  destruct (proj1 (song_fill_seq_event_passes two_notes trigger_100_300 0)
              eq_refl) as (_ & _ & Hrun).
  exact (Hrun []).
Defined.

(** The replay writes the note on at tick 242 and the note off at the end
    of the trigger, tick 300. *)
Example song_fill_seq_event_two_notes :
  song_fill_seq_event two_notes trigger_100_300 0 []
  = Ok (300, [0x81; 0x72; 0x90; 60; 100; 58; 0x80; 60; 0]).
Proof. reflexivity. Qed.

Lemma replay_pass_event_witness :
  replay_pass two_notes trigger_100_300 242 [note_off 96 60]
    (242, <[60%nat := 1]> (replicate 128 0))
  = (add_event two_notes (note_off 96 60) (300 - 242) ;;
     replay_pass two_notes trigger_100_300 242 []
       (300, <[60%nat := 1 - 1]> (<[60%nat := 1]> (replicate 128 0)))).
Proof.
  pose proof (replay_pass_event two_notes trigger_100_300 242
                (note_off 96 60) [] 242 (<[60%nat := 1]> (replicate 128 0)))
    as (_ & _ & _ & _ & Hoff & _).
  apply (Hoff ltac:(cbn; lia) eq_refl eq_refl eq_refl (or_intror eq_refl)
           1 eq_refl ltac:(lia)).
Defined.

(** An aftertouch event at tick 150 under a trigger that ends at tick 100:
    the event is neither a note on nor a note off and lies past the end of
    the trigger, and both passes of the replay write it, at ticks 150 and
    342, without a change to the note table. *)
Lemma aftertouch_kept_past_end :
  let trig := trigger.make 0 100 0 0 in
  let e := make_event 150 0xA0 0 60 64 [] in
  is_note_on e = false
  /\ is_note_off e = false
  /\ trigger.tick_end trig <= timestamp e + 0
  /\ replay_event trig 0 (replicate 128 0) e
     = Ok (replicate 128 0, Some (e, 150))
  /\ song_fill_seq_event (pattern [e] [trig]) trig 0 []
     = Ok (342, [0x81; 0x16; 0xA0; 60; 64] ++ [0x81; 0x40; 0xA0; 60; 64])
  /\ song_fill_seq_event (pattern [e] [trig]) trig 0 [] <> Ok (0, []).
Proof. cbv zeta. repeat split; vm_compute; discriminate. Qed.

(** The first event lies before tick 0: the event loop stops at once, with
    nothing but the sequence number and the track name in the container,
    and the SeqSpec section and the end of the track follow. *)
Lemma fill_continues_after_bad_delta :
  (fill_seq_number 0 ;;
   fill_seq_name (sequence.name early_note) ;;
   fill_events early_note (sort (sequence.events early_note)) 0) []
  = Ok ((0, true), [0; 0xFF; 0x00; 2; 0; 0] ++ [0; 0xFF; 0x03; 0])
  /\ fill settings0 early_note 0 true []
     = Ok (true,
           [0; 0xFF; 0x00; 2; 0; 0] ++ [0; 0xFF; 0x03; 0]
           ++ [0; 0xFF; 0x7F; 16; 0x24; 0x24; 0x00; 0x08]
           ++ [0; 0; 0; 0] ++ [0; 0; 0; 191] ++ [0; 0; 0; 0]
           ++ [0; 0xFF; 0x7F; 5; 0x24; 0x24; 0x00; 0x01; 0]
           ++ [0; 0xFF; 0x7F; 6; 0x24; 0x24; 0x00; 0x06; 4; 4]
           ++ [0; 0xFF; 0x7F; 5; 0x24; 0x24; 0x00; 0x02; 0]
           ++ [0; 0xFF; 0x7F; 5; 0x24; 0x24; 0x00; 0x14; 1]
           ++ [0x81; 0x40; 0xFF; 0x2F; 0])
  /\ fill settings0 early_note 0 true []
     <> Ok (true, [0; 0xFF; 0x00; 2; 0; 0] ++ [0; 0xFF; 0x03; 0]).
Proof. repeat split. discriminate. Qed.

(** C5: a pattern of length zero with one trigger, not muted, is
    exportable, and its song export takes a remainder by zero; the guarded
    accessor [sequence::mod_last_tick] of the same pattern does not. *)
Theorem song_fill_track_zero_length :
  sequence.is_exportable (with_length 0 two_notes) = true
  /\ song_fill_track settings0 (with_length 0 two_notes) 0 true []
     = Fault DivideByZero
  /\ sequence.mod_last_tick (with_length 0 two_notes) = 0.
Proof. repeat split. Qed.

(** ** Further properties on concrete patterns *)

Lemma add_varinum_value_witness :
  (1 <= 4)%nat /\ 8 * Z.of_nat 4 <= ulong_bits
  /\ 0 <= 0x0FFFFFFF < 2 ^ (7 * Z.of_nat 4)
  /\ vlq_value (varinum_bytes 0x0FFFFFFF) = 0x0FFFFFFF.
Proof.
  assert (H1 : (1 <= 4)%nat) by lia.
  assert (H2 : 8 * Z.of_nat 4 <= ulong_bits) by (cbn; lia).
  assert (H3 : 0 <= 0x0FFFFFFF < 2 ^ (7 * Z.of_nat 4)) by (cbn; lia).
  split; [exact H1 |]. split; [exact H2 |]. split; [exact H3 |].
  apply (add_varinum_value 4 0x0FFFFFFF H1 H2 H3).
Defined.

Lemma fill_seq_number_bytes_witness :
  0 <= 513 < 2 ^ 16
  /\ ((513 / 2 ^ 8) mod 256) * 2 ^ 8 + 513 mod 256 = 513.
Proof.
  assert (Hr : 0 <= 513 < 2 ^ 16) by lia.
  split; [exact Hr |].
  apply (proj2 (fill_seq_number_bytes 513) Hr).
Defined.

Lemma fill_seq_name_bytes_witness :
  let name :=
    String.string_of_list_ascii (map Ascii.ascii_of_nat [76; 101; 97; 100]%nat)
  in
  (String.length name < 128)%nat
  /\ fill_seq_name name []
     = Ok (tt, [0; 0xFF; 0x03; 4] ++ [76; 101; 97; 100]).
Proof.
  intros name.
  assert (Hlen : (String.length name < 128)%nat) by (cbn; lia).
  split; [exact Hlen |].
  exact (proj1 (fill_seq_name_bytes name Hlen) []).
Defined.

Lemma put_seqspec_bytes_witness :
  0 <= c_midibus < 2 ^ 32 /\ 0 <= 1 < 124
  /\ put_seqspec c_midibus 1 []
     = Ok (tt, [0; 0xFF; 0x7F; 5; 0x24; 0x24; 0x00; 0x01]).
Proof.
  assert (Hspec : 0 <= c_midibus < 2 ^ 32) by (cbn; lia).
  assert (Hlen : 0 <= 1 < 124) by lia.
  split; [exact Hspec |]. split; [exact Hlen |].
  exact (put_seqspec_bytes c_midibus 1 Hspec Hlen []).
Defined.

(** The note off of the two-note pattern in the second pass: tick 338 lies
    past the end of the trigger, and the event is written at tick 300. *)
Lemma replay_event_window_witness :
  replay_event trigger_100_300 242 (<[60%nat := 1]> (replicate 128 0))
    (note_off 96 60)
  = Ok (<[60%nat := 0]> (replicate 128 0), Some (note_off 96 60, 300))
  /\ trigger.tick_start trigger_100_300 <= 300.
Proof.
  assert (Hrun : replay_event trigger_100_300 242
                   (<[60%nat := 1]> (replicate 128 0)) (note_off 96 60)
                 = Ok (<[60%nat := 0]> (replicate 128 0),
                       Some (note_off 96 60, 300)))
    by reflexivity.
  split; [exact Hrun |].
  destruct (replay_event_window _ _ _ _ _ _ _ Hrun) as (_ & _ & _ & Hstart).
  apply Hstart. cbn. lia.
Defined.

Lemma replay_event_table_witness :
  replay_event trigger_100_300 242 (replicate 128 0) (note_on 0 60)
  = Ok (<[60%nat := 1]> (replicate 128 0), Some (note_on 0 60, 242))
  /\ List.length (<[60%nat := 1]> (replicate 128 0)) = 128%nat.
Proof.
  assert (Hrun : replay_event trigger_100_300 242 (replicate 128 0)
                   (note_on 0 60)
                 = Ok (<[60%nat := 1]> (replicate 128 0),
                       Some (note_on 0 60, 242)))
    by reflexivity.
  split; [exact Hrun |].
  apply (proj1 (replay_event_table _ _ _ _ _ _ Hrun)).
Defined.

Lemma song_fill_track_runs_witness :
  sequence.is_exportable two_notes = true
  /\ sequence.m_length two_notes <> 0
  /\ notes_below c_notes_count (sequence.m_events two_notes)
  /\ exists body,
       forall bytes,
         song_fill_track settings0 two_notes 7 true bytes
         = Ok (true, [0; 0xFF; 0x00; 0x02; 0; 7] ++ body ++ [0xFF; 0x2F; 0x00]).
Proof.
  assert (Hexp : sequence.is_exportable two_notes = true) by reflexivity.
  assert (Hlen : sequence.m_length two_notes <> 0) by (cbn; lia).
  assert (Hnotes : notes_below c_notes_count (sequence.m_events two_notes))
    by (repeat constructor; cbn; lia).
  split; [exact Hexp |]. split; [exact Hlen |]. split; [exact Hnotes |].
  exact (song_fill_track_runs settings0 two_notes 7 true Hexp Hlen Hnotes).
Defined.

Lemma song_fill_seq_event_no_events_witness :
  song_fill_seq_event (pattern [] [trigger_100_300]) trigger_100_300 17
    [1; 2; 3]
  = Ok (17, [1; 2; 3] ++ []).
Proof.
  apply (song_fill_seq_event_no_events (pattern [] [trigger_100_300])
           trigger_100_300 17 eq_refl).
  cbn. lia.
Defined.

Lemma fill_ordered_events_witness :
  ordered_from 0 (sort (sequence.m_events two_notes)) = true
  /\ map fst (exported_events (sort (sequence.m_events two_notes)) 0)
     = sort (sequence.m_events two_notes).
Proof.
  assert (Hord : ordered_from 0 (sort (sequence.m_events two_notes)) = true)
    by reflexivity.
  split; [exact Hord |].
  apply (proj2 (fill_ordered_events settings0 two_notes 0 true) Hord).
Defined.

Lemma mod_last_tick_range_witness :
  sequence.mod_last_tick
    (sequence.make (event := event) [] [] String.EmptyString 192 500 false
       false 0 0 4 4 192 0 0 0x800 true (-1) 0)
  = 500 mod 192.
Proof.
  apply (proj2 (mod_last_tick_range
                  (sequence.make (event := event) [] [] String.EmptyString
                     192 500 false false 0 0 4 4 192 0 0 0x800 true (-1) 0)));
    cbn; lia.
Defined.

Lemma two_notes_plain : plain_notes trigger_100_300 (sequence.m_events two_notes).
Proof.
  constructor; [intros _; left; reflexivity |].
  constructor; [intros _; right; reflexivity | constructor].
Qed.

Lemma two_notes_below :
  notes_below c_notes_count (sequence.m_events two_notes).
Proof.
  constructor; [intros _; cbn; lia |].
  constructor; [intros _; cbn; lia | constructor].
Qed.

Lemma two_notes_within :
  Forall (fun e => timestamp e <= sequence.m_length two_notes)
    (sequence.m_events two_notes).
Proof.
  constructor; [cbn; lia |]. constructor; [cbn; lia | constructor].
Qed.

Lemma song_fill_seq_event_deltas_witness :
  exists written st',
    replay_traces trigger_100_300 192 (sequence.m_events two_notes)
      (pass_count 192 trigger_100_300) (first_time_offset 192 trigger_100_300)
      (0, replicate c_notes_count 0)
    = Ok (written, st')
    /\ writes (song_fill_seq_event two_notes trigger_100_300 0) (fst st')
         (events_bytes two_notes written)
    /\ Forall (fun ed => 0 <= snd ed) written
    /\ 0 <= fst st' <= 300.
Proof.
  apply (song_fill_seq_event_deltas two_notes trigger_100_300 0).
  - cbn. lia.
  - exact two_notes_below.
  - exact two_notes_plain.
  - reflexivity.
  - exact two_notes_within.
  - cbn. lia.
  - cbn. lia.
Defined.

Lemma song_fill_track_deltas_witness :
  exists head written last_ts middle ender end_delta,
    song_trace two_notes (sequence.m_triggers two_notes) 0
    = Ok (written, last_ts)
    /\ last (sequence.m_triggers two_notes) = Some ender
    /\ (forall bytes,
          song_fill_track settings0 two_notes 0 true bytes
          = Ok (true,
                head ++ events_bytes two_notes written ++ middle
                ++ varinum_bytes (to_ulong end_delta) ++ [0xFF; 0x2F; 0x00]))
    /\ Forall (fun ed => 0 <= snd ed) written
    /\ 0 <= end_delta
    /\ total_delta written + end_delta
       = snapped_end (trigger.tick_end ender)
           (sequence.measures_to_ticks two_notes 1).
Proof.
  apply (song_fill_track_deltas settings0 two_notes 0 true).
  - reflexivity.
  - cbn. lia.
  - exact two_notes_below.
  - constructor; [exact two_notes_plain | constructor].
  - reflexivity.
  - exact two_notes_within.
  - reflexivity.
Defined.

(** The two-note pattern under its trigger: the note on at tick 242 and
    the note off at tick 300. *)
Example song_trace_two_notes :
  song_trace two_notes (sequence.m_triggers two_notes) 0
  = Ok ([(note_on 0 60, 242); (note_off 96 60, 58)], 300).
Proof. reflexivity. Qed.

(** The hypothesis on the notes is needed: an aftertouch event past the end
    of the trigger is written at its own tick, and the note off that
    follows it is written at the end of the trigger, with a delta time
    below zero. *)
Example aftertouch_then_note_off :
  replay_trace (trigger.make 0 100 0 0) 0
    [note_on 0 60; make_event 150 0xA0 0 60 64 []; note_off 180 60]
    (0, replicate 128 0)
  = Ok ([(note_on 0 60, 0); (make_event 150 0xA0 0 60 64 [], 150);
         (note_off 180 60, -50)],
        (100, replicate 128 0)).
Proof. reflexivity. Qed.
